(** * claude-flow: the Q-learning router and the flash-attention kernel

    A shallow embedding of

    - [QLearningRouter] (v3/@claude-flow/cli, q-learning-router): state
      hashing, greedy / epsilon-greedy routing, the temporal-difference
      update with exploration decay and table pruning, export / import;
    - [FlashAttention] (v3/@claude-flow/cli/src/ruvector/flash-attention.ts):
      input validation, the unrolled dot product, the direct and the
      block-tiled attention.

    JavaScript numbers are IEEE-754 binary64 values: they are modelled by
    Rocq's primitive [float], whose [+ - * /], comparisons and [sqrt] are the
    same correctly rounded operations.  A [Float32Array] is a list of
    numbers whose stores round to binary32 ([fround]).  What the language
    leaves to the engine ([Math.exp], [Math.random], [Date.now]) is an
    explicit parameter, the record [Engine]. *)

From Stdlib Require Import ZArith List String Ascii Bool Lia Floats DecimalString.
From Stdlib Require Import Permutation Sorted FunctionalExtensionality.
Import ListNotations.

(* Decimal literals such as 0.1 denote the nearest binary64 value, as they do
   in JavaScript. *)
Set Warnings "-inexact-float,-abstract-large-number".
Set Warnings "-notation-for-abbreviation".

Set Implicit Arguments.

(* ================================================================== *)
(** * JavaScript values *)
(* ================================================================== *)

Module JS.

(** ** Numbers *)

Definition number := float.

(** [a > b] and [a >= b] on numbers: false as soon as one side is NaN. *)
Definition gt (a b : number) : bool := PrimFloat.ltb b a.
Definition ge (a b : number) : bool := PrimFloat.leb b a.

(** [ToNumber(undefined)] is NaN: reading past the end of an array and
    using the result in arithmetic yields NaN. *)
Definition ToNumber (v : option number) : number :=
  match v with Some x => x | None => nan end.

(** [Math.max(a, b)]: NaN when either is NaN, and [+0] above [-0]. *)
Definition max2 (a b : number) : number :=
  if is_nan a then nan
  else if is_nan b then nan
  else if PrimFloat.ltb a b then b
  else if PrimFloat.ltb b a then a
  else if get_sign a then b else a.

(** [Math.max(...xs)]; [-Infinity] for no argument. *)
Definition Math_max (xs : list number) : number :=
  fold_left max2 xs neg_infinity.

Definition Math_abs (x : number) : number := PrimFloat.abs x.

(** The integer [n] as a number (exact below 2^53). *)
Definition of_nat (n : nat) : number :=
  PrimFloat.of_uint63 (Uint63.of_Z (Z.of_nat n)).

(** [Math.floor] of a finite, non-integral number is computed on its
    mantissa and exponent; every other number is its own floor. *)
Definition Math_floor (x : number) : number :=
  match Prim2SF x with
  | S754_finite s m e =>
      SF2Prim (binary_normalize prec emax
                 (Z.shiftl (if s then Z.neg m else Z.pos m) e) 0 s)
  | _ => x
  end.

(** A number used as an array index: [Some n] when it is the
    non-negative integer [n], [None] otherwise (the property lookup then
    yields [undefined]). *)
Definition array_index (x : number) : option nat :=
  match Prim2SF x with
  | S754_zero _ => Some 0
  | S754_finite false m e =>
      if (0 <=? e)%Z then Some (Z.to_nat (Z.shiftl (Z.pos m) e))
      else if (Z.shiftl (Z.shiftl (Z.pos m) e) (- e) =? Z.pos m)%Z
           then Some (Z.to_nat (Z.shiftl (Z.pos m) e))
           else None
  | _ => None
  end.

(** ** Float32Array *)

(** Rounding a number to the nearest binary32 value (ties to even), as a
    store into a [Float32Array] does ([Math.fround]). *)
Definition fround (x : number) : number :=
  match Prim2SF x with
  | S754_finite s m e =>
      SF2Prim (binary_normalize 24 128 (if s then Z.neg m else Z.pos m) e s)
  | _ => x
  end.

Definition Float32Array := list number.

(** [new Float32Array(n)]: [n] zeros. *)
Definition Float32Array_new (n : nat) : Float32Array := repeat zero n.

(** [new Float32Array(xs)]: every element rounded to binary32. *)
Definition Float32Array_from (xs : list number) : Float32Array :=
  map fround xs.

(** [a[i]]: [undefined] out of range. *)
Definition get (a : list number) (i : option nat) : option number :=
  match i with Some i => nth_error a i | None => None end.

(** [a[i] = v] on a typed array: rounded, and ignored out of range. *)
Fixpoint store (a : Float32Array) (i : nat) (v : number) : Float32Array :=
  match a, i with
  | [], _ => []
  | _ :: a', O => fround v :: a'
  | x :: a', S i' => x :: store a' i' v
  end.

(** ** Integers and strings *)

(** [ToInt32]: wrap to a signed 32-bit integer. *)
Definition ToInt32 (z : Z) : Z := ((z + 2 ^ 31) mod 2 ^ 32 - 2 ^ 31)%Z.

(** A string as its UTF-16 code units ([charCodeAt]). *)
Definition text := list Z.

(** The code units of a string of 8-bit characters. *)
Definition utf16 (s : string) : text :=
  map (fun c => Z.of_nat (nat_of_ascii c)) (list_ascii_of_string s).

(** The decimal rendering of an integer in a template string. *)
Definition string_of_Z (z : Z) : string := NilZero.string_of_int (Z.to_int z).

(** [xs.indexOf(x)], with [None] for -1. *)
Fixpoint indexOf (xs : list string) (x : string) : option nat :=
  match xs with
  | [] => None
  | y :: xs' =>
      if String.eqb y x then Some 0
      else match indexOf xs' x with Some i => Some (S i) | None => None end
  end.

(** ** Array.prototype.sort *)

(** [xs.sort(cmp)] is stable; [after a b] says that the comparator
    returned a positive number on [(a, b)], so that [a] goes behind [b]
    (a NaN result counts as 0).  For a consistent comparator every stable
    sort returns the list computed here, by insertion from the right. *)
Section Sort.
Variable A : Type.
Variable after : A -> A -> bool.

Fixpoint insert (x : A) (l : list A) : list A :=
  match l with
  | [] => [x]
  | y :: l' => if after x y then y :: insert x l' else x :: l
  end.

Fixpoint sort (l : list A) : list A :=
  match l with
  | [] => []
  | x :: l' => insert x (sort l')
  end.
End Sort.

(** ** Map: keyed by strings, iterated in insertion order *)

Section Map.
Variable V : Type.

Definition Map := list (string * V).

Fixpoint Map_get (m : Map) (k : string) : option V :=
  match m with
  | [] => None
  | (k', v) :: m' => if String.eqb k' k then Some v else Map_get m' k
  end.

Definition Map_has (m : Map) (k : string) : bool :=
  match Map_get m k with Some _ => true | None => false end.

(** [m.set(k, v)]: an existing key keeps its position, a new key goes
    last. *)
Fixpoint Map_set (m : Map) (k : string) (v : V) : Map :=
  match m with
  | [] => [(k, v)]
  | (k', v') :: m' =>
      if String.eqb k' k then (k, v) :: m' else (k', v') :: Map_set m' k v
  end.

Fixpoint Map_delete (m : Map) (k : string) : Map :=
  match m with
  | [] => []
  | (k', v') :: m' =>
      if String.eqb k' k then m' else (k', v') :: Map_delete m' k
  end.

Definition Map_size (m : Map) : nat := List.length m.

Definition Map_keys (m : Map) : list string := map fst m.
End Map.

(** ** Plain objects *)

(** A property key that is an array index: the canonical decimal of an
    integer below 2^32 - 1 (no sign, no leading zero). *)
Definition digit_of (c : ascii) : option N :=
  let n := N_of_ascii c in
  if ((48 <=? n) && (n <=? 57))%N then Some (n - 48)%N else None.

Fixpoint decimal_value (s : string) (acc : N) : option N :=
  match s with
  | EmptyString => Some acc
  | String c s' =>
      match digit_of c with
      | Some d => decimal_value s' (10 * acc + d)%N
      | None => None
      end
  end.

Definition index_key (s : string) : option N :=
  match s with
  | EmptyString => None
  | String c EmptyString => digit_of c
  | String c _ =>
      if Ascii.eqb c "0"%char then None
      else match decimal_value s 0 with
           | Some n => if (n <? 2 ^ 32 - 1)%N then Some n else None
           | None => None
           end
  end.

Definition is_index_key (s : string) : bool :=
  match index_key s with Some _ => true | None => false end.

Section Object.
Variable V : Type.

(** An object made by [{}] whose properties hold objects: its own
    properties in the order of their creation, and the object that an
    assignment to [__proto__] has put in the place of
    [Object.prototype], if any. *)
Record Obj := { own : Map V; proto : option V }.

Definition Object_new : Obj := {| own := []; proto := None |}.

(** [o[k] = v] for an object [v]: the key [__proto__] reaches the setter
    of [Object.prototype], which replaces the prototype of [o] and
    creates no property; any other key sets an own property. *)
Definition Object_set (o : Obj) (k : string) (v : V) : Obj :=
  if String.eqb k "__proto__"%string
  then {| own := own o; proto := Some v |}
  else {| own := Map_set (own o) k v; proto := proto o |}.

(** The comparator of two properties with array-index keys: the greater
    index goes behind. *)
Definition greater_index (a b : string * V) : bool :=
  match index_key (fst a), index_key (fst b) with
  | Some i, Some j => (j <? i)%N
  | _, _ => false
  end.

(** [Object.entries(o)]: the own properties, those with array-index
    keys first, in ascending order of the index, then the others in the
    order of their creation. *)
Definition Object_entries (o : Obj) : list (string * V) :=
  sort greater_index (filter (fun kv => is_index_key (fst kv)) (own o))
  ++ filter (fun kv => negb (is_index_key (fst kv))) (own o).
End Object.

(** ** The engine *)

(** What the engine supplies: [Math.exp], and the successive results of
    [Math.random()] and [Date.now()]. *)
Record Engine := {
  Math_exp : number -> number;
  Math_random : nat -> number;
  Date_now : nat -> Z
}.

End JS.

(* ================================================================== *)
(** * The Q-learning router *)
(* ================================================================== *)

Module QLearningRouter.
Import JS.
Local Open Scope string_scope.

Inductive DecayType := linear | exponential | cosine.

(** [QLearningRouterConfig].  [maxStates] and [numActions] are sizes
    (non-negative integers); [Math.floor(maxStates * 0.8)] is then the
    integer quotient [4 * maxStates / 5]. *)
Record QLearningRouterConfig := {
  learningRate : number;
  gamma : number;
  explorationInitial : number;
  explorationFinal : number;
  explorationDecay : number;
  explorationDecayType : DecayType;
  maxStates : nat;
  numActions : nat;
  replayBufferSize : nat;
  replayBatchSize : nat;
  enableReplay : bool;
  cacheSize : nat;
  cacheTTL : Z;
  modelPath : string;
  autoSaveInterval : nat;
  stateSpaceDim : nat
}.

Record Alternative := { alt_route : string; score : option number }.

Record RouteDecision := {
  d_route : string;
  d_confidence : number;
  d_qValues : list number;
  d_explored : bool;
  d_alternatives : list Alternative
}.

(** [lastUpdate] is a [Date.now()] reading: an integral number of
    milliseconds. *)
Record QEntry := {
  qValues : Float32Array;
  visits : number;
  lastUpdate : Z
}.

Record Experience := {
  stateKey : string;
  actionIdx : nat;
  reward : number;
  nextStateKey : option string;
  exp_timestamp : Z;
  priority : number
}.

Record CacheEntry := {
  decision : RouteDecision;
  timestamp : Z;
  hits : number
}.

(** What [export()] returns and [import()] takes, per state key. *)
Record ExportedEntry := { x_qValues : list number; x_visits : number }.

Definition DEFAULT_CONFIG : QLearningRouterConfig := {|
  learningRate := 0.1%float;
  gamma := 0.99%float;
  explorationInitial := 1%float;
  explorationFinal := 0.01%float;
  explorationDecay := 10000%float;
  explorationDecayType := exponential;
  maxStates := 10000;
  numActions := 8;
  replayBufferSize := 1000;
  replayBatchSize := 32;
  enableReplay := true;
  cacheSize := 256;
  cacheTTL := 300000;
  modelPath := ".swarm/q-learning-model.json";
  autoSaveInterval := 100;
  stateSpaceDim := 64
|}.

Definition ROUTE_NAMES : list string :=
  ["coder"; "tester"; "reviewer"; "architect";
   "researcher"; "optimizer"; "debugger"; "documenter"].

(** The fields of the class ([ruvectorEngine], the handle of the optional
    native module, is left out). *)
Record Router := {
  config : QLearningRouterConfig;
  qTable : Map QEntry;
  epsilon : number;
  stepCount : number;
  updateCount : number;
  avgTDError : number;
  useNative : bool;
  replayBuffer : list Experience;
  replayBufferIdx : nat;
  totalExperiences : number;
  routeCache : Map CacheEntry;
  cacheOrder : list string;
  cacheHits : number;
  cacheMisses : number;
  featureHashCache : Map Float32Array
}.

(** [new QLearningRouter(config)], [config] already merged over
    [DEFAULT_CONFIG]. *)
Definition constructor (cfg : QLearningRouterConfig) : Router := {|
  config := cfg;
  qTable := [];
  epsilon := explorationInitial cfg;
  stepCount := zero;
  updateCount := zero;
  avgTDError := zero;
  useNative := false;
  replayBuffer := [];
  replayBufferIdx := 0;
  totalExperiences := zero;
  routeCache := [];
  cacheOrder := [];
  cacheHits := zero;
  cacheMisses := zero;
  featureHashCache := []
|}.

Definition createQLearningRouter := constructor.

(** Field assignments. *)
Definition set_qTable (r : Router) (t : Map QEntry) : Router := {|
  config := config r; qTable := t; epsilon := epsilon r;
  stepCount := stepCount r; updateCount := updateCount r;
  avgTDError := avgTDError r; useNative := useNative r;
  replayBuffer := replayBuffer r; replayBufferIdx := replayBufferIdx r;
  totalExperiences := totalExperiences r; routeCache := routeCache r;
  cacheOrder := cacheOrder r; cacheHits := cacheHits r;
  cacheMisses := cacheMisses r; featureHashCache := featureHashCache r
|}.

Definition set_exploration (r : Router) (steps eps : number) : Router := {|
  config := config r; qTable := qTable r; epsilon := eps;
  stepCount := steps; updateCount := updateCount r;
  avgTDError := avgTDError r; useNative := useNative r;
  replayBuffer := replayBuffer r; replayBufferIdx := replayBufferIdx r;
  totalExperiences := totalExperiences r; routeCache := routeCache r;
  cacheOrder := cacheOrder r; cacheHits := cacheHits r;
  cacheMisses := cacheMisses r; featureHashCache := featureHashCache r
|}.

Definition set_tdStats (r : Router) (updates avg : number) : Router := {|
  config := config r; qTable := qTable r; epsilon := epsilon r;
  stepCount := stepCount r; updateCount := updates;
  avgTDError := avg; useNative := useNative r;
  replayBuffer := replayBuffer r; replayBufferIdx := replayBufferIdx r;
  totalExperiences := totalExperiences r; routeCache := routeCache r;
  cacheOrder := cacheOrder r; cacheHits := cacheHits r;
  cacheMisses := cacheMisses r; featureHashCache := featureHashCache r
|}.

(** ** The engine and the method monad *)

(** The router object together with the number of random draws and clock
    readings made so far. *)
Record World := { this : Router; draws : nat; ticks : nat }.

(** A method body: a state transformer over [World]. *)
Definition M (A : Type) : Type := World -> A * World.

Definition ret {A} (a : A) : M A := fun w => (a, w).

Definition bind {A B} (c : M A) (k : A -> M B) : M B :=
  fun w => let (a, w') := c w in k a w'.

Notation "x <- c ;; k" := (bind c (fun x => k))
  (at level 61, c at next level, right associativity).
Notation "c ;;; k" := (bind c (fun _ => k))
  (at level 61, right associativity).

Definition self : M Router := fun w => (this w, w).

Definition assign (f : Router -> Router) : M unit :=
  fun w => (tt, {| this := f (this w); draws := draws w; ticks := ticks w |}).

Definition random (E : Engine) : M number :=
  fun w => (Math_random E (draws w),
            {| this := this w; draws := S (draws w); ticks := ticks w |}).

Definition now (E : Engine) : M Z :=
  fun w => (Date_now E (ticks w),
            {| this := this w; draws := draws w; ticks := S (ticks w) |}).

Fixpoint forEach {A} (xs : list A) (body : A -> M unit) : M unit :=
  match xs with
  | [] => ret tt
  | x :: xs' => body x ;;; forEach xs' body
  end.

(** ** Private methods *)

(** [hashState]: [hash = ((hash << 5) - hash) + char; hash = hash & hash]
    over the code units, then the key [state_<hash>]. *)
Definition hashStep (hash char : Z) : Z :=
  ToInt32 ((ToInt32 (hash * 32) - hash) + char).

Definition hashState (context : text) : string :=
  "state_" ++ string_of_Z (fold_left hashStep context 0%Z).

Definition getQValues (stateKey : string) : M (list number) :=
  r <- self ;;
  match Map_get (qTable r) stateKey with
  | None => ret (repeat zero (numActions (config r)))
  | Some entry => ret (qValues entry)
  end.

Definition getOrCreateEntry (E : Engine) (stateKey : string) : M QEntry :=
  r <- self ;;
  match Map_get (qTable r) stateKey with
  | Some entry => ret entry
  | None =>
      t <- now E ;;
      let entry := {| qValues := Float32Array_new (numActions (config r));
                      visits := zero;
                      lastUpdate := t |} in
      assign (fun r => set_qTable r (Map_set (qTable r) stateKey entry)) ;;;
      ret entry
  end.

(** The loop of [argmax], from index [i] on. *)
Fixpoint argmax_from (rest : list number) (i maxIdx : nat) (maxVal : number)
  : nat :=
  match rest with
  | [] => maxIdx
  | v :: rest' =>
      if gt v maxVal then argmax_from rest' (S i) i v
      else argmax_from rest' (S i) maxIdx maxVal
  end.

Definition argmax (values : list number) : nat :=
  match values with
  | [] => 0
  | v0 :: rest => argmax_from rest 1 0 v0
  end.

Definition softmaxConfidence (E : Engine) (qValues : list number)
    (actionIdx : option nat) : number :=
  let maxQ := Math_max qValues in
  let expValues := map (fun q => Math_exp E (q - maxQ)%float) qValues in
  let sumExp := fold_left PrimFloat.add expValues zero in
  (ToNumber (get expValues actionIdx) / sumExp)%float.

(** Oldest first: the comparator [a[1].lastUpdate - b[1].lastUpdate]. *)
Definition older_first (a b : string * QEntry) : bool :=
  (0 <? lastUpdate (snd a) - lastUpdate (snd b))%Z.

Definition pruneQTable : M unit :=
  r <- self ;;
  let entries := sort older_first (qTable r) in
  let toRemove := List.length entries - (4 * maxStates (config r)) / 5 in
  forEach (firstn toRemove entries)
    (fun e => assign (fun r => set_qTable r (Map_delete (qTable r) (fst e)))).

(** ** Public methods *)

(** Highest score first: the comparator [b.score - a.score]. *)
Definition best_first (a b : Alternative) : bool :=
  PrimFloat.ltb zero (ToNumber (score b) - ToNumber (score a))%float.

(** [names[i]]: [undefined] out of range. *)
Definition name_at (names : list string) (i : option nat) : option string :=
  match i with Some i => nth_error names i | None => None end.

(** [a || d] on a possibly undefined string. *)
Definition or_else (v : option string) (d : string) : string :=
  match v with
  | Some s => if String.eqb s "" then d else s
  | None => d
  end.

Definition route (E : Engine) (taskContext : text) (explore : bool)
  : M RouteDecision :=
  let stateKey := hashState taskContext in
  shouldExplore <-
    (if explore
     then (r <- self ;; u <- random E ;; ret (PrimFloat.ltb u (epsilon r)))
     else ret false) ;;
  choice <-
    (if shouldExplore : bool
     then
       r <- self ;;
       u <- random E ;;
       let actionIdx :=
         array_index (Math_floor (u * of_nat (numActions (config r)))%float) in
       qValues <- getQValues stateKey ;;
       ret (actionIdx, qValues)
     else
       qValues <- getQValues stateKey ;;
       ret (Some (argmax qValues), qValues)) ;;
  let actionIdx := fst choice in
  let qValues := snd choice in
  let confidence := softmaxConfidence E qValues actionIdx in
  let alternatives :=
    firstn 3 (skipn 1
      (sort best_first
         (map (fun ir => {| alt_route := snd ir;
                            score := nth_error qValues (fst ir) |})
            (combine (seq 0 (List.length ROUTE_NAMES)) ROUTE_NAMES)))) in
  ret {| d_route := or_else (name_at ROUTE_NAMES actionIdx) "coder";
         d_confidence := confidence;
         d_qValues := qValues;
         d_explored := shouldExplore;
         d_alternatives := alternatives |}.

(** [update]: [None] for [nextContext] is the omitted argument; like the
    empty string it is falsy, and the transition is then terminal. *)
Definition update (E : Engine) (taskContext : text) (action : string)
    (reward : number) (nextContext : option text) : M number :=
  let stateKey := hashState taskContext in
  match indexOf ROUTE_NAMES action with
  | None => ret zero
  | Some actionIdx =>
      entry <- getOrCreateEntry E stateKey ;;
      let currentQ := ToNumber (nth_error (qValues entry) actionIdx) in
      targetQ <-
        (match nextContext with
         | Some (c :: cs) =>
             r <- self ;;
             nextQValues <- getQValues (hashState (c :: cs)) ;;
             let maxNextQ := Math_max nextQValues in
             ret (reward + gamma (config r) * maxNextQ)%float
         | _ => ret reward
         end) ;;
      let tdError := (targetQ - currentQ)%float in
      r <- self ;;
      t <- now E ;;
      (* [entry] is the object held by the table: the three assignments
         change the table's entry in place *)
      let entry' :=
        {| qValues :=
             store (qValues entry) actionIdx
               (ToNumber (nth_error (qValues entry) actionIdx)
                + learningRate (config r) * tdError)%float;
           visits := (visits entry + 1)%float;
           lastUpdate := t |} in
      assign (fun r => set_qTable r (Map_set (qTable r) stateKey entry')) ;;;
      assign (fun r =>
        let steps := (stepCount r + 1)%float in
        set_exploration r steps
          (Math_max [explorationFinal (config r);
                     (explorationInitial (config r)
                      - steps / explorationDecay (config r))%float])) ;;;
      r <- self ;;
      (if (maxStates (config r) <? Map_size (qTable r))%nat
       then pruneQTable else ret tt) ;;;
      assign (fun r =>
        let updates := (updateCount r + 1)%float in
        set_tdStats r updates
          ((avgTDError r * (updates - 1) + Math_abs tdError) / updates)%float) ;;;
      ret tdError
  end.

Record Stats := {
  s_updateCount : number;
  s_qTableSize : nat;
  s_epsilon : number;
  s_avgTDError : number;
  s_stepCount : number;
  s_useNative : nat
}.

Definition getStats : M Stats :=
  r <- self ;;
  ret {| s_updateCount := updateCount r;
         s_qTableSize := Map_size (qTable r);
         s_epsilon := epsilon r;
         s_avgTDError := avgTDError r;
         s_stepCount := stepCount r;
         s_useNative := if useNative r then 1 else 0 |}.

Definition reset : M unit :=
  assign (fun r => set_qTable r []) ;;;
  assign (fun r => set_exploration r zero (explorationInitial (config r))) ;;;
  assign (fun r => set_tdStats r zero zero).

(** [export]: the object built from [{}] by one assignment
    [result[key] = { qValues, visits }] per row of the table. *)
Definition export : M (Obj ExportedEntry) :=
  r <- self ;;
  ret (fold_left
         (fun result ke =>
            Object_set result (fst ke)
              {| x_qValues := qValues (snd ke); x_visits := visits (snd ke) |})
         (qTable r) (Object_new ExportedEntry)).

(** [import]: [data] is [Object.entries(data)]. *)
Definition import (E : Engine) (data : list (string * ExportedEntry)) : M unit :=
  assign (fun r => set_qTable r []) ;;;
  forEach data (fun ke =>
    t <- now E ;;
    assign (fun r =>
      set_qTable r
        (Map_set (qTable r) (fst ke)
           {| qValues := Float32Array_from (x_qValues (snd ke));
              visits := x_visits (snd ke);
              lastUpdate := t |}))).

End QLearningRouter.

(* ================================================================== *)
(** * Flash attention *)
(* ================================================================== *)

Module FlashAttention.
Import JS.

(** ** Arithmetic *)

(** The kernel is written once over the operations it performs on
    numbers.  [binary64] below is what runs: the numbers of the engine,
    with their rounding on every operation and on every store into a
    [Float32Array].  Facts that do not depend on the numbers are proved
    for every instance. *)
Record Arith := {
  num : Type;
  n_zero : num;
  n_one : num;
  n_neg_infinity : num;
  n_undefined : num;
  n_add : num -> num -> num;
  n_sub : num -> num -> num;
  n_mul : num -> num -> num;
  n_div : num -> num -> num;
  n_gt : num -> num -> bool;
  n_is : num -> num -> bool;
  n_max : num -> num -> num;
  n_exp : num -> num;
  n_sqrt : num -> num;
  n_of_nat : nat -> num;
  n_fround : num -> num
}.

Declare Scope num_scope.
Delimit Scope num_scope with num.
Notation "x + y" := (n_add _ x y) : num_scope.
Notation "x - y" := (n_sub _ x y) : num_scope.
Notation "x * y" := (n_mul _ x y) : num_scope.
Notation "x / y" := (n_div _ x y) : num_scope.

(** JavaScript numbers: [n_undefined] is [ToNumber(undefined)], [n_is]
    is [===], [n_max a b] is [Math.max(a, b)], [n_fround] the rounding
    of a store into a [Float32Array]. *)
Definition binary64 (E : Engine) : Arith := {|
  num := number;
  n_zero := zero;
  n_one := one;
  n_neg_infinity := neg_infinity;
  n_undefined := nan;
  n_add := PrimFloat.add;
  n_sub := PrimFloat.sub;
  n_mul := PrimFloat.mul;
  n_div := PrimFloat.div;
  n_gt := gt;
  n_is := PrimFloat.eqb;
  n_max := fun a b => Math_max [a; b];
  n_exp := Math_exp E;
  n_sqrt := PrimFloat.sqrt;
  n_of_nat := of_nat;
  n_fround := fround
|}.

(** A [Float32Array] of such numbers. *)
Definition vector (A : Arith) : Type := list (num A).

Record FlashAttentionConfig (A : Arith) := {
  blockSize : nat;
  dimensions : nat;
  temperature : num A;
  useStableMode : bool
}.

(** The constructor's defaults. *)
Definition default_config (A : Arith) : FlashAttentionConfig A := {|
  blockSize := 64;
  dimensions := 384;
  temperature := n_one A;
  useStableMode := true
|}.

(** The errors of [validateInputs], with the numbers their messages
    print, and the [TypeError] of indexing [undefined]. *)
Inductive Error :=
| EmptyInputArrays
| KeyValueCount (nKeys nValues : nat)
| QueryKeyDimensions (qDim kDim : nat)
| KeyValueDimensions (kDim vDim : nat)
| TypeError.

(** How a call ends; [Diverges] is a loop that never exits. *)
Inductive Outcome (X : Type) :=
| Returns (a : X)
| Throws (e : Error)
| Diverges.
Arguments Throws {X} e.
Arguments Diverges {X}.

(** One element read [v[i]] on an input vector [v]. *)
Record Read := { of_length : nat; at_index : nat }.

Definition in_range (r : Read) : bool := (at_index r <? of_length r)%nat.

(** A computation: its outcome and the element reads it made on the
    vectors of [queries], [keys] and [values], in order. *)
Definition T (X : Type) : Type := (Outcome X * list Read)%type.

Definition ret {X} (a : X) : T X := (Returns a, []).

Definition throw {X} (e : Error) : T X := (Throws e, []).

Definition bind {X Y} (c : T X) (k : X -> T Y) : T Y :=
  match c with
  | (Returns a, t1) => let (o, t2) := k a in (o, t1 ++ t2)
  | (Throws e, t1) => (Throws e, t1)
  | (Diverges, t1) => (Diverges, t1)
  end.

Notation "x <- c ;; k" := (bind c (fun x => k))
  (at level 61, c at next level, right associativity).

(** A [for] loop over the successive values [xs] of its variable. *)
Fixpoint foldM {S X} (body : S -> X -> T S) (xs : list X) (s : S) : T S :=
  match xs with
  | [] => ret s
  | x :: xs' => s' <- body s x ;; foldM body xs' s'
  end.

(** The values [0, step, 2 * step, ...] below [n] of a loop variable
    advanced by [step]; with [step = 0] the loop does not advance. *)
Definition strides (n step : nat) : option (list nat) :=
  match n, step with
  | O, _ => Some []
  | _, O => None
  | _, _ => Some (map (fun k => k * step) (seq 0 ((n + step - 1) / step)))
  end.

(** [rows[i] = row]. *)
Fixpoint set_nth {X} (l : list X) (i : nat) (x : X) : list X :=
  match l, i with
  | [], _ => []
  | _ :: l', O => x :: l'
  | y :: l', S i' => y :: set_nth l' i' x
  end.

Definition first_length {X} (vectors : list (list X)) : option nat :=
  match vectors with
  | v :: _ => Some (List.length v)
  | [] => None
  end.

(** [a ?? b]. *)
Definition nullish (a : option nat) (b : nat) : nat :=
  match a with Some n => n | None => b end.

(** ** [validateInputs] *)
Definition validateInputs {X} (queries keys values : list (list X))
  : Outcome unit :=
  if (List.length queries =? 0) || (List.length keys =? 0)
     || (List.length values =? 0)
  then Throws EmptyInputArrays
  else if negb (List.length keys =? List.length values)
  then Throws (KeyValueCount (List.length keys) (List.length values))
  else
    let qDim := nullish (first_length queries) 0 in
    let kDim := nullish (first_length keys) 0 in
    let vDim := nullish (first_length values) 0 in
    if negb (qDim =? kDim) then Throws (QueryKeyDimensions qDim kDim)
    else if negb (kDim =? vDim) then Throws (KeyValueDimensions kDim vDim)
    else Returns tt.

Section Methods.
Variable A : Arith.
Variable config : FlashAttentionConfig A.
Local Open Scope num_scope.

(** An element of a vector in an arithmetic expression; [undefined] past
    the end. *)
Definition ToNumber (v : option (num A)) : num A :=
  match v with Some x => x | None => n_undefined A end.

(** [new Float32Array(n)]: [n] zeros. *)
Definition Float32Array_new (n : nat) : vector A := repeat (n_zero A) n.

(** [a[i] = v] on a [Float32Array]: rounded, and ignored out of range. *)
Fixpoint store (a : vector A) (i : nat) (v : num A) : vector A :=
  match a, i with
  | [], _ => []
  | _ :: a', O => n_fround A v :: a'
  | x :: a', S i' => x :: store a' i' v
  end.

(** [v[i]] on an input vector. *)
Definition read (v : vector A) (i : nat) : T (num A) :=
  (Returns (ToNumber (nth_error v i)),
   [{| of_length := List.length v; at_index := i |}]).

(** [rows[j][d]]: a [TypeError] when [rows[j]] is [undefined]. *)
Definition read_row (rows : list (vector A)) (j d : nat) : T (num A) :=
  match nth_error rows j with
  | Some v => read v d
  | None => throw TypeError
  end.

(** ** [dotProduct]: four products per step, then the rest *)
Definition dotProduct (a b : vector A) : T (num A) :=
  let len := Nat.min (List.length a) (List.length b) in
  sum <-
    foldM (fun sum i =>
             a0 <- read a i ;; b0 <- read b i ;;
             a1 <- read a (i + 1) ;; b1 <- read b (i + 1) ;;
             a2 <- read a (i + 2) ;; b2 <- read b (i + 2) ;;
             a3 <- read a (i + 3) ;; b3 <- read b (i + 3) ;;
             ret (sum + (a0 * b0 + a1 * b1 + a2 * b2 + a3 * b3)))
      (map (fun k => (4 * k)%nat) (seq 0 (len / 4))) (n_zero A) ;;
  foldM (fun sum i =>
           x <- read a i ;; y <- read b i ;;
           ret (sum + x * y))
    (seq (4 * (len / 4)) (len - 4 * (len / 4))) sum.

(** The greatest of [scores], found with [>] from [-Infinity]. *)
Definition maximum (scores : vector A) : num A :=
  fold_left (fun max s => if n_gt A s max then s else max)
    scores (n_neg_infinity A).

(** ** [softmax] *)
Definition softmax (scores : vector A) : vector A :=
  let max := maximum scores in
  let result := map (fun s => n_fround A (n_exp A (s - max))) scores in
  let sum := fold_left (n_add A) result (n_zero A) in
  if n_gt A sum (n_zero A) then map (fun x => n_fround A (x / sum)) result
  else result.

Definition scale_of (dims : nat) : num A :=
  n_one A / (n_sqrt A (n_of_nat A dims) * temperature config).

(** One row of scores: [scores[j] = dotProduct(query, keys[j]) * scale]. *)
Definition score_row (query : vector A) (keys : list (vector A))
    (scale : num A) : T (vector A) :=
  foldM (fun row key =>
           dot <- dotProduct query key ;;
           ret (row ++ [n_fround A (dot * scale)]))
    keys [].

(** [row[d] += weight * values[j][d]] for every [d < dims]. *)
Definition accumulate (values : list (vector A)) (dims : nat)
    (row : vector A) (j : nat) (weight : num A) : T (vector A) :=
  foldM (fun row d =>
           x <- read_row values j d ;;
           ret (store row d (ToNumber (nth_error row d) + weight * x)))
    (seq 0 dims) row.

(** ** [naiveAttention] *)
Definition naiveAttention (queries keys values : list (vector A))
  : T (list (vector A)) :=
  let numKeys := List.length keys in
  let dims := nullish (first_length queries) (dimensions config) in
  let scale := scale_of dims in
  scores <-
    foldM (fun scores query =>
             row <- score_row query keys scale ;;
             ret (scores ++ [row]))
      queries [] ;;
  let attentionWeights := map softmax scores in
  foldM (fun output weights =>
           row <-
             foldM (fun row j =>
                      accumulate values dims row j
                        (ToNumber (nth_error weights j)))
               (seq 0 numKeys) (Float32Array_new dims) ;;
           ret (output ++ [row]))
    attentionWeights [].

(** ** [blockAttention] *)

(** The online-softmax state: outputs, running maxima, running sums. *)
Record Running := {
  output : list (vector A);
  maxScores : vector A;
  sumExp : vector A
}.

Definition computeBlockScores (Q K : list (vector A))
    (qStart qEnd kStart kEnd : nat) (scale : num A)
  : T (list (vector A)) :=
  foldM (fun scores query =>
           row <- score_row query (firstn (kEnd - kStart) (skipn kStart K))
                    scale ;;
           ret (scores ++ [row]))
    (firstn (qEnd - qStart) (skipn qStart Q)) [].

Definition onlineSoftmaxAccumulate (blockScores : list (vector A))
    (V : list (vector A)) (dims : nat) (st : Running)
    (qStart qEnd kStart kEnd : nat) : T Running :=
  foldM (fun st qi =>
           let globalQi := (qStart + qi)%nat in
           let rowScores := nth qi blockScores [] in
           let blockMax := maximum rowScores in
           let oldMax := ToNumber (nth_error (maxScores st) globalQi) in
           let newMax := n_max A oldMax blockMax in
           let correction :=
             if n_is A oldMax (n_neg_infinity A) then n_zero A
             else n_exp A (oldMax - newMax) in
           let newSumExp :=
             ToNumber (nth_error (sumExp st) globalQi) * correction in
           let row0 :=
             map (fun x => n_fround A (x * correction))
               (nth globalQi (output st) []) in
           acc <-
             foldM (fun acc ki =>
                      let expScore :=
                        n_exp A (ToNumber (nth_error rowScores ki) - newMax) in
                      row <- accumulate V dims (snd acc) (kStart + ki)
                               expScore ;;
                      ret (fst acc + expScore, row))
               (seq 0 (kEnd - kStart)) (newSumExp, row0) ;;
           ret {| output := set_nth (output st) globalQi (snd acc);
                  maxScores := store (maxScores st) globalQi newMax;
                  sumExp := store (sumExp st) globalQi (fst acc) |})
    (seq 0 (qEnd - qStart)) st.

Definition blockAttention (Q K V : list (vector A)) (blockSize : nat)
  : T (list (vector A)) :=
  let numQueries := List.length Q in
  let numKeys := List.length K in
  let dims := nullish (first_length Q) (dimensions config) in
  let scale := scale_of dims in
  let st0 := {| output := repeat (Float32Array_new dims) numQueries;
                maxScores := repeat (n_neg_infinity A) numQueries;
                sumExp := repeat (n_zero A) numQueries |} in
  match strides numKeys blockSize with
  | None => (Diverges, [])
  | Some kStarts =>
      st <-
        foldM (fun st kStart =>
                 let kEnd := Nat.min (kStart + blockSize) numKeys in
                 match strides numQueries blockSize with
                 | None => (Diverges, [])
                 | Some qStarts =>
                     foldM (fun st qStart =>
                              let qEnd :=
                                Nat.min (qStart + blockSize) numQueries in
                              blockScores <-
                                computeBlockScores Q K qStart qEnd
                                  kStart kEnd scale ;;
                              onlineSoftmaxAccumulate blockScores V dims st
                                qStart qEnd kStart kEnd)
                       qStarts st
                 end)
          kStarts st0 ;;
      ret (map (fun rn =>
                  let normalizer := snd rn in
                  if n_gt A normalizer (n_zero A)
                  then map (fun x => n_fround A (x / normalizer)) (fst rn)
                  else fst rn)
             (combine (output st) (sumExp st)))
  end.

(** ** [attention]: validation, then the tiled path above 1024 score
    entries and the direct path otherwise.  The elapsed time reported
    next to the output is not modelled. *)
Definition attention (queries keys values : list (vector A))
  : T (list (vector A)) :=
  match validateInputs queries keys values with
  | Throws e => throw e
  | Diverges => (Diverges, [])
  | Returns _ =>
      if (1024 <? List.length queries * List.length keys)%nat
      then blockAttention queries keys values (blockSize config)
      else naiveAttention queries keys values
  end.

End Methods.

Arguments ToNumber : clear implicits.
Arguments Float32Array_new : clear implicits.
Arguments store : clear implicits.
Arguments read : clear implicits.
Arguments read_row : clear implicits.
Arguments dotProduct : clear implicits.
Arguments maximum : clear implicits.
Arguments softmax : clear implicits.
Arguments scale_of : clear implicits.
Arguments score_row : clear implicits.
Arguments accumulate : clear implicits.
Arguments naiveAttention : clear implicits.
Arguments computeBlockScores : clear implicits.
Arguments onlineSoftmaxAccumulate : clear implicits.
Arguments blockAttention : clear implicits.
Arguments attention : clear implicits.

End FlashAttention.

(* ================================================================== *)
(** * Derived forms, callers and concrete runs *)
(* ================================================================== *)

(** What the statements below are written with: the results of the
    router's steps as functions of what they find, a caller that loops,
    and the worlds reached by a few concrete calls. *)

Module Runs.
Import JS QLearningRouter.
Local Open Scope string_scope.

(** A caller making successive [route] calls. *)
Fixpoint route_all (E : Engine) (calls : list (text * bool))
  : M (list RouteDecision) :=
  match calls with
  | [] => ret []
  | (taskContext, explore) :: calls' =>
      d <- route E taskContext explore ;;
      ds <- route_all E calls' ;;
      ret (d :: ds)
  end.

(** An engine for concrete runs: [Math.exp] by twelve terms of its
    series, every random draw 0.5, a clock that advances by one
    millisecond per reading. *)
Definition series_exp (x : number) : number :=
  fold_right (fun k acc => (1 + x / of_nat k * acc)%float) 1%float (seq 1 12).

Definition engine : Engine := {|
  Math_exp := series_exp;
  Math_random := fun _ => 0.5%float;
  Date_now := fun n => (1700000000000 + Z.of_nat n)%Z
|}.

(** The decision that [route] builds from the selected index, the row
    of Q-values and the exploration flag. *)
Definition decision_of (E : Engine) (actionIdx : option nat)
    (qValues : list number) (explored : bool) : RouteDecision :=
  {| d_route := or_else (name_at ROUTE_NAMES actionIdx) "coder";
     d_confidence := softmaxConfidence E qValues actionIdx;
     d_qValues := qValues;
     d_explored := explored;
     d_alternatives :=
       firstn 3 (skipn 1
         (sort best_first
            (map (fun ir => {| alt_route := snd ir;
                               score := nth_error qValues (fst ir) |})
               (combine (seq 0 (List.length ROUTE_NAMES)) ROUTE_NAMES)))) |}.

(** The world [w] after [n] more random draws. *)
Definition after_draws (w : World) (n : nat) : World :=
  {| this := this w; draws := n + draws w; ticks := ticks w |}.

(** The world [w] with the router's table replaced by [t]. *)
Definition with_table (w : World) (t : Map QEntry) : World :=
  {| this := set_qTable (this w) t; draws := draws w; ticks := ticks w |}.

(** The table that [pruneQTable] leaves, as a function of the table it
    finds. *)
Definition pruned (cfg : QLearningRouterConfig) (t : Map QEntry) : Map QEntry :=
  fold_left (fun t e => Map_delete t (fst e))
    (firstn (List.length (sort older_first t) - (4 * maxStates cfg) / 5)
       (sort older_first t))
    t.

(** [{ ...cfg, maxStates: n }]. *)
Definition with_maxStates (cfg : QLearningRouterConfig) (n : nat)
  : QLearningRouterConfig := {|
  learningRate := learningRate cfg;
  gamma := gamma cfg;
  explorationInitial := explorationInitial cfg;
  explorationFinal := explorationFinal cfg;
  explorationDecay := explorationDecay cfg;
  explorationDecayType := explorationDecayType cfg;
  maxStates := n;
  numActions := numActions cfg;
  replayBufferSize := replayBufferSize cfg;
  replayBatchSize := replayBatchSize cfg;
  enableReplay := enableReplay cfg;
  cacheSize := cacheSize cfg;
  cacheTTL := cacheTTL cfg;
  modelPath := modelPath cfg;
  autoSaveInterval := autoSaveInterval cfg;
  stateSpaceDim := stateSpaceDim cfg
|}.

(** The exponential law that the default [explorationDecayType] names:
    [final + (initial - final) * exp(-step / decay)]. *)
Definition exponential_law (E : Engine) (cfg : QLearningRouterConfig)
    (step : number) : number :=
  (explorationFinal cfg
   + (explorationInitial cfg - explorationFinal cfg)
     * Math_exp E (- (step / explorationDecay cfg)))%float.

(** The table that [import] builds from [data] on top of [t], the first
    clock reading being the [n]-th. *)
Fixpoint imported (E : Engine) (n : nat) (data : list (string * ExportedEntry))
    (t : Map QEntry) : Map QEntry :=
  match data with
  | [] => t
  | (k, x) :: data' =>
      imported E (S n) data'
        (Map_set t k {| qValues := Float32Array_from (x_qValues x);
                        visits := x_visits x;
                        lastUpdate := Date_now E n |})
  end.

(** Whether the key of a row is other than [__proto__]. *)
Definition ordinary_key {V} (kv : string * V) : bool :=
  negb (String.eqb (fst kv) "__proto__").

(** What [export()] makes of a row of the table. *)
Definition exported_entry (e : QEntry) : ExportedEntry :=
  {| x_qValues := qValues e; x_visits := visits e |}.

Definition exported (ke : string * QEntry) : string * ExportedEntry :=
  (fst ke, exported_entry (snd ke)).

(** Every row of [data] has one value per action. *)
Definition rows_match (cfg : QLearningRouterConfig)
    (data : list (string * ExportedEntry)) : bool :=
  forallb (fun ke => (List.length (x_qValues (snd ke)) =? numActions cfg)%nat)
    data.

(** Every value of the table is a binary32 number, as the elements of a
    [Float32Array] are. *)
Definition binary32_table (t : Map QEntry) : Prop :=
  forall k entry, In (k, entry) t -> map fround (qValues entry) = qValues entry.

(** The world [w] with the router's [routeCache] replaced by [c]. *)
Definition with_routeCache (w : World) (c : Map CacheEntry) : World :=
  {| this := {|
       config := config (this w); qTable := qTable (this w);
       epsilon := epsilon (this w); stepCount := stepCount (this w);
       updateCount := updateCount (this w); avgTDError := avgTDError (this w);
       useNative := useNative (this w); replayBuffer := replayBuffer (this w);
       replayBufferIdx := replayBufferIdx (this w);
       totalExperiences := totalExperiences (this w); routeCache := c;
       cacheOrder := cacheOrder (this w); cacheHits := cacheHits (this w);
       cacheMisses := cacheMisses (this w);
       featureHashCache := featureHashCache (this w) |};
     draws := draws w; ticks := ticks w |}.

(** [new QLearningRouter()] before any call. *)
Definition fresh (cfg : QLearningRouterConfig) : World :=
  {| this := constructor cfg; draws := 0; ticks := 0 |}.

(** [update(taskContext, "coder", 1)] for each task in turn. *)
Definition learn (tasks : list string) (w : World) : World :=
  fold_left (fun w task => snd (update engine (utf16 task) "coder" 1%float None w))
    tasks w.

(** After [update("fix login bug", "coder", 1)] on a fresh default
    router. *)
Definition trained : World :=
  Eval vm_compute in
    snd (update engine (utf16 "fix login bug") "coder" 1%float None
           (fresh DEFAULT_CONFIG)).

(** The engine [engine] with every random draw equal to [u]. *)
Definition engine_drawing (u : number) : Engine := {|
  Math_exp := Math_exp engine;
  Math_random := fun _ => u;
  Date_now := Date_now engine
|}.



(** A router of capacity 2 after updates on the states of "a" and "b",
    and a router of capacity 1 after an update on the state of "a". *)
Definition two_states : World :=
  Eval vm_compute in learn ["a"; "b"] (fresh (with_maxStates DEFAULT_CONFIG 2)).

Definition one_state : World :=
  Eval vm_compute in learn ["a"] (fresh (with_maxStates DEFAULT_CONFIG 1)).

End Runs.

(* ================================================================== *)
(** * Callers of the router *)
(* ================================================================== *)

Module Sessions.
Import JS QLearningRouter.

(** A call of a public method by the owner of a router. *)
Inductive Call :=
| CallRoute (taskContext : text) (explore : bool)
| CallUpdate (taskContext : text) (action : string) (reward : number)
    (nextContext : option text)
| CallGetStats
| CallReset
| CallExport
| CallImport (data : list (string * ExportedEntry)).

(** The call, its result dropped. *)
Definition call (E : Engine) (c : Call) : M unit :=
  match c with
  | CallRoute taskContext explore => route E taskContext explore ;;; ret tt
  | CallUpdate taskContext action reward nextContext =>
      update E taskContext action reward nextContext ;;; ret tt
  | CallGetStats => getStats ;;; ret tt
  | CallReset => reset
  | CallExport => export ;;; ret tt
  | CallImport data => import E data
  end.

(** Successive calls. *)
Definition session (E : Engine) (calls : list Call) : M unit :=
  forEach calls (call E).

(** An exported row with its Q-values rounded to binary32. *)
Definition rounded_entry (x : ExportedEntry) : ExportedEntry :=
  {| x_qValues := Float32Array_from (x_qValues x); x_visits := x_visits x |}.

Definition rounded (ke : string * ExportedEntry) : string * ExportedEntry :=
  (fst ke, rounded_entry (snd ke)).


(** [r'] has the configuration, the native flag, the replay buffer and
    the caches of [r]. *)
Definition same_unused (r r' : Router) : Prop :=
  config r' = config r
  /\ useNative r' = useNative r
  /\ replayBuffer r' = replayBuffer r
  /\ replayBufferIdx r' = replayBufferIdx r
  /\ totalExperiences r' = totalExperiences r
  /\ routeCache r' = routeCache r
  /\ cacheOrder r' = cacheOrder r
  /\ cacheHits r' = cacheHits r
  /\ cacheMisses r' = cacheMisses r
  /\ featureHashCache r' = featureHashCache r.

End Sessions.

(* ================================================================== *)
(** * The command registry *)
(* ================================================================== *)

(** The first part of commands/index.ts: the array [commands], the map
    [commandRegistry] filled from it when the module is loaded, and the
    functions that read them. *)

Module CommandRegistry.
Import JS.
Local Open Scope string_scope.

Section Registry.
(** What a command carries besides the properties read here (its
    description, options, action, ...). *)
Variable Detail : Type.

(** A [Command]: [aliases] and [hidden] are optional. *)
Record Command := {
  name : string;
  aliases : option (list string);
  hidden : option bool;
  detail : Detail
}.

(** The array [commands]; its elements come from the command modules. *)
Variable commands : list Command.

(** One pass of the registration loop: the name, then every alias. *)
Definition register (registry : Map Command) (cmd : Command) : Map Command :=
  let registry := Map_set registry (name cmd) cmd in
  match aliases cmd with
  | Some names =>
      fold_left (fun registry alias => Map_set registry alias cmd)
        names registry
  | None => registry
  end.

Definition commandRegistry : Map Command := fold_left register commands [].

Definition getCommand (n : string) : option Command :=
  Map_get commandRegistry n.

Definition hasCommand (n : string) : bool := Map_has commandRegistry n.

Definition getCommandNames : list string := Map_keys commandRegistry.

(** [!cmd.hidden]. *)
Definition shown (cmd : Command) : bool :=
  match hidden cmd with Some true => false | _ => true end.

Definition getUniqueCommands : list Command := filter shown commands.

(** [setupCommands(cli)]: [cli.command] acts on the state [S] of [cli]. *)
Definition setupCommands {S} (command : S -> Command -> S) (cli : S) : S :=
  fold_left command commands cli.

(** [cmd] is registered under [n]: as its name or as one of its
    aliases. *)
Definition answers (n : string) (cmd : Command) : bool :=
  String.eqb (name cmd) n
  || match aliases cmd with
     | Some names => existsb (String.eqb n) names
     | None => false
     end.

End Registry.

End CommandRegistry.

(* ================================================================== *)
(** * The flash-attention module and its optimizer *)
(* ================================================================== *)

(** The rest of flash-attention.ts: the objects of class
    [FlashAttention], the module's singleton and the functions that use
    it. *)

Module FlashAttentionModule.
Import JS FlashAttention.

Section Module.
Variable A : Arith.

(** [Partial<FlashAttentionConfig>]: [None] is a property that is
    absent, [undefined] or [null]. *)
Record PartialConfig := {
  p_blockSize : option nat;
  p_dimensions : option nat;
  p_temperature : option (num A);
  p_useStableMode : option bool
}.

(** [{}]. *)
Definition no_config : PartialConfig := {|
  p_blockSize := None;
  p_dimensions := None;
  p_temperature := None;
  p_useStableMode := None
|}.

Record BenchmarkResult := {
  naiveTimeMs : num A;
  flashTimeMs : num A;
  speedup : num A;
  numVectors : num A;
  b_dimensions : num A;
  naiveMemoryBytes : num A;
  flashMemoryBytes : num A;
  memoryReduction : num A
}.

(** The fields of a [FlashAttention] object. *)
Record Instance := {
  config : FlashAttentionConfig A;
  lastSpeedup : num A;
  benchmarkHistory : list BenchmarkResult
}.

(** [a ?? b]. *)
Definition or_default {X} (a : option X) (b : X) : X :=
  match a with Some x => x | None => b end.

(** [new FlashAttention(config)]; the parameter defaults to [{}]. *)
Definition constructor (config : option PartialConfig) : Instance :=
  let config := or_default config no_config in
  {| config := {| blockSize := or_default (p_blockSize config) 64;
                  dimensions := or_default (p_dimensions config) 384;
                  temperature := or_default (p_temperature config) (n_one A);
                  useStableMode := or_default (p_useStableMode config) true |};
     lastSpeedup := n_zero A;
     benchmarkHistory := [] |}.

Definition getSpeedup (fa : Instance) : num A := lastSpeedup fa.

Definition getBenchmarkHistory (fa : Instance) : list BenchmarkResult :=
  benchmarkHistory fa.

Definition getConfig (fa : Instance) : FlashAttentionConfig A := config fa.

(** [fa.attention(queries, keys, values)]: the output. *)
Definition run_attention (fa : Instance) (queries keys values : list (vector A))
  : T (list (vector A)) :=
  attention A (config fa) queries keys values.

(** The module variable [flashAttentionInstance], and a function of the
    module as a transformer of it. *)
Definition Singleton : Type := option Instance.

Definition getFlashAttention (config : option PartialConfig) (s : Singleton)
  : Instance * Singleton :=
  match s with
  | Some fa => (fa, s)
  | None => let fa := constructor config in (fa, Some fa)
  end.

Definition resetFlashAttention (s : Singleton) : unit * Singleton :=
  (tt, None).

(** [computeAttention]: a configuration, even [{}], makes a new object;
    without one the singleton is used.  Of the result, the output. *)
Definition computeAttention (queries keys values : list (vector A))
    (config : option PartialConfig) (s : Singleton)
  : T (list (vector A)) * Singleton :=
  match config with
  | Some c =>
      let fa := constructor (Some c) in
      (run_attention fa queries keys values, s)
  | None =>
      let (fa, s') := getFlashAttention None s in
      (run_attention fa queries keys values, s')
  end.

Definition getFlashAttentionSpeedup (s : Singleton) : num A * Singleton :=
  let (fa, s') := getFlashAttention None s in (getSpeedup fa, s').

End Module.

End FlashAttentionModule.

(** The metrics of [FlashAttentionOptimizer].  The attention package it
    drives is outside this repository: what [benchmarkAttention] returned
    is an argument of [benchmark]. *)

Module FlashAttentionOptimizer.
Import JS.
Local Open Scope string_scope.

(** [s.includes(t)]. *)
Fixpoint includes (s t : string) : bool :=
  String.prefix t s
  || match s with
     | EmptyString => false
     | String _ s' => includes s' t
     end.

(** One entry of what [benchmarkAttention] of the attention package
    returns. *)
Record AttentionBenchmarkResult := {
  r_name : string;
  averageTimeMs : number;
  opsPerSecond : number;
  memoryUsageBytes : option number
}.

Record Measured := {
  m_averageTimeMs : number;
  m_opsPerSecond : number;
  m_memoryUsageBytes : option number
}.

(** [BenchmarkResult], without its [timestamp]. *)
Record BenchmarkResult := {
  flashAttention : Measured;
  baseline : Measured;
  speedup : number;
  meetsTarget : bool
}.

Record PerformanceMetrics := {
  totalOperations : number;
  averageSpeedup : number;
  p_peakSpeedup : number;
  averageExecutionTimeMs : number;
  totalMemorySavedBytes : number;
  successRate : number
}.

Record Metrics := {
  operations : number;
  totalSpeedup : number;
  peakSpeedup : number;
  totalExecutionTime : number;
  successfulOperations : number
}.

(** The fields of the class (the two attention objects of the package
    are left out). *)
Record Optimizer := {
  dim : number;
  blockSize : number;
  metrics : Metrics
}.

Definition no_metrics : Metrics := {|
  operations := zero;
  totalSpeedup := zero;
  peakSpeedup := zero;
  totalExecutionTime := zero;
  successfulOperations := zero
|}.

(** [new FlashAttentionOptimizer(dim, blockSize)]: an argument left
    out is [None]. *)
Definition constructor (dim blockSize : option number) : Optimizer :=
  {| dim := match dim with Some d => d | None => 512%float end;
     blockSize := match blockSize with Some b => b | None => 64%float end;
     metrics := no_metrics |}.

Definition createFlashAttentionOptimizer := constructor.

Inductive Error := BenchmarkResultsIncomplete.

Section Methods.
(** [String.prototype.toLowerCase]. *)
Variable toLowerCase : string -> string.

(** [benchmark()], [results] being what [benchmarkAttention(dim, 100,
    1000)] returned: the result or the error, and the object after the
    call. *)
Definition benchmark (results : list AttentionBenchmarkResult) (o : Optimizer)
  : (BenchmarkResult + Error) * Optimizer :=
  let flashResult :=
    find (fun r => includes (toLowerCase (r_name r)) "flash") results in
  let baselineResult :=
    find (fun r => includes (toLowerCase (r_name r)) "dot"
                   || includes (toLowerCase (r_name r)) "product") results in
  match flashResult, baselineResult with
  | Some flashResult, Some baselineResult =>
      let speedup :=
        (averageTimeMs baselineResult / averageTimeMs flashResult)%float in
      let meetsTarget := ge speedup 2.49%float in
      let m := metrics o in
      let m := if gt speedup (peakSpeedup m)
               then {| operations := operations m;
                       totalSpeedup := totalSpeedup m;
                       peakSpeedup := speedup;
                       totalExecutionTime := totalExecutionTime m;
                       successfulOperations := successfulOperations m |}
               else m in
      let m := {| operations := operations m;
                  totalSpeedup := (totalSpeedup m + speedup)%float;
                  peakSpeedup := peakSpeedup m;
                  totalExecutionTime := totalExecutionTime m;
                  successfulOperations := successfulOperations m |} in
      let m := if meetsTarget : bool
               then {| operations := operations m;
                       totalSpeedup := totalSpeedup m;
                       peakSpeedup := peakSpeedup m;
                       totalExecutionTime := totalExecutionTime m;
                       successfulOperations :=
                         (successfulOperations m + 1)%float |}
               else m in
      (inl {| flashAttention :=
                {| m_averageTimeMs := averageTimeMs flashResult;
                   m_opsPerSecond := opsPerSecond flashResult;
                   m_memoryUsageBytes := memoryUsageBytes flashResult |};
              baseline :=
                {| m_averageTimeMs := averageTimeMs baselineResult;
                   m_opsPerSecond := opsPerSecond baselineResult;
                   m_memoryUsageBytes := memoryUsageBytes baselineResult |};
              speedup := speedup;
              meetsTarget := meetsTarget |},
       {| dim := dim o; blockSize := blockSize o; metrics := m |})
  | _, _ => (inr BenchmarkResultsIncomplete, o)
  end.

End Methods.

Definition getSpeedup (o : Optimizer) : number :=
  if PrimFloat.eqb (operations (metrics o)) zero then zero
  else (totalSpeedup (metrics o) / operations (metrics o))%float.

Definition getMetrics (o : Optimizer) : PerformanceMetrics :=
  let avgSpeedup := getSpeedup o in
  let m := metrics o in
  {| totalOperations := operations m;
     averageSpeedup := avgSpeedup;
     p_peakSpeedup := peakSpeedup m;
     averageExecutionTimeMs :=
       if gt (operations m) zero
       then (totalExecutionTime m / operations m)%float else zero;
     totalMemorySavedBytes := zero;
     successRate :=
       if gt (operations m) zero
       then (successfulOperations m / operations m * 100)%float else zero |}.

Definition resetMetrics (o : Optimizer) : Optimizer :=
  {| dim := dim o; blockSize := blockSize o; metrics := no_metrics |}.

(** A caller running one benchmark per element of [runs]. *)
Definition benchmarks (toLowerCase : string -> string)
    (runs : list (list AttentionBenchmarkResult)) (o : Optimizer) : Optimizer :=
  fold_left (fun o results => snd (benchmark toLowerCase results o)) runs o.

End FlashAttentionOptimizer.

(** The shape of the running state of the tiled computation. *)

Module Shapes.
Import FlashAttention.

(** The running state has [n] rows of [dims] numbers. *)
Definition state_shape (A : Arith) (n dims : nat) (st : Running A) : Prop :=
  List.length (output st) = n
  /\ Forall (fun row => List.length row = dims) (output st)
  /\ List.length (maxScores st) = n
  /\ List.length (sumExp st) = n.

End Shapes.

(* ================================================================== *)
(** * Facts about numbers, sorting and maps *)
(* ================================================================== *)

Module JSFacts.
Import JS.

(** ** The order of numbers *)

Ltac order_cases :=
  repeat match goal with
  | |- context [Z.compare ?a ?b] => destruct (Z.compare_spec a b); subst
  | |- context [Pos.compare_cont Eq ?a ?b] =>
      change (Pos.compare_cont Eq a b) with (Pos.compare a b);
      destruct (Pos.compare_spec a b); subst
  | H : context [Z.compare ?a ?b] |- _ =>
      destruct (Z.compare_spec a b); subst
  | H : context [Pos.compare_cont Eq ?a ?b] |- _ =>
      change (Pos.compare_cont Eq a b) with (Pos.compare a b) in H;
      destruct (Pos.compare_spec a b); subst
  end.

Ltac order_by_cases x y z :=
  unfold SFltb, SFleb, SFcompare;
  destruct x as [[]|[]| |[] ? ?], y as [[]|[]| |[] ? ?], z as [[]|[]| |[] ? ?];
  simpl; try discriminate; try reflexivity; intros;
  order_cases; simpl in *; try discriminate; try reflexivity; try lia.

Lemma SFltb_irrefl x : SFltb x x = false.
Proof.
  unfold SFltb, SFcompare.
  destruct x as [[]|[]| |[] m e]; try reflexivity;
    rewrite Z.compare_refl;
    change (Pos.compare_cont Eq m m) with (Pos.compare m m);
    now rewrite Pos.compare_refl.
Qed.

Lemma SFltb_trans x y z :
  SFltb x y = true -> SFltb y z = true -> SFltb x z = true.
Proof. order_by_cases x y z. Qed.

Lemma SFltb_leb_trans x y z :
  SFltb x y = true -> SFleb y z = true -> SFltb x z = true.
Proof. order_by_cases x y z. Qed.

(** No number is greater than itself (NaN included). *)
Lemma gt_irrefl (a : number) : gt a a = false.
Proof. unfold gt. rewrite ltb_spec. apply SFltb_irrefl. Qed.

Lemma gt_trans (a b c : number) :
  gt a b = true -> gt b c = true -> gt a c = true.
Proof.
  unfold gt. rewrite !ltb_spec. intros H1 H2.
  exact (SFltb_trans _ _ _ H2 H1).
Qed.

(** [a >= b] and [b > c] give [a > c]. *)
Lemma ge_gt_trans (a b c : number) :
  ge a b = true -> gt b c = true -> gt a c = true.
Proof.
  unfold gt, ge. rewrite !ltb_spec, leb_spec. intros H1 H2.
  exact (SFltb_leb_trans _ _ _ H2 H1).
Qed.

(** ** Maps *)

Section MapFacts.
Variable V : Type.
Implicit Types (m : Map V) (k : string) (v : V).

Lemma Map_get_In m k v : Map_get m k = Some v -> In (k, v) m.
Proof.
  induction m as [|[k' v'] m IH]; simpl; [discriminate|].
  destruct (String.eqb_spec k' k) as [->|Hne].
  - intros [= ->]. now left.
  - intros H. right. auto.
Qed.

Lemma Map_get_None m k : Map_get m k = None <-> ~ In k (Map_keys m).
Proof.
  induction m as [|[k' v'] m IH]; simpl.
  - split; auto.
  - destruct (String.eqb_spec k' k) as [->|Hne].
    + split; [discriminate|]. intros H. exfalso. apply H. now left.
    + rewrite IH. split; intros H; [intros [H'|H']; auto|]; tauto.
Qed.

Lemma Map_set_absent m k v :
  Map_get m k = None -> Map_set m k v = m ++ [(k, v)].
Proof.
  induction m as [|[k' v'] m IH]; simpl; [reflexivity|].
  destruct (String.eqb_spec k' k); [discriminate|].
  intros H. now rewrite IH.
Qed.

Lemma Map_set_last m k v v' :
  Map_get m k = None -> Map_set (m ++ [(k, v)]) k v' = m ++ [(k, v')].
Proof.
  induction m as [|[k0 v0] m IH]; simpl.
  - now rewrite String.eqb_refl.
  - destruct (String.eqb_spec k0 k); [discriminate|].
    intros H. now rewrite IH.
Qed.

Lemma Map_get_set_same m k v : Map_get (Map_set m k v) k = Some v.
Proof.
  induction m as [|[k' v'] m IH]; simpl.
  - now rewrite String.eqb_refl.
  - destruct (String.eqb_spec k' k) as [->|Hne]; simpl.
    + now rewrite String.eqb_refl.
    + apply String.eqb_neq in Hne. now rewrite Hne.
Qed.

Lemma Map_get_set_other m k k' v :
  k <> k' -> Map_get (Map_set m k v) k' = Map_get m k'.
Proof.
  intros Hne. induction m as [|[k0 v0] m IH]; simpl.
  - apply String.eqb_neq in Hne. now rewrite Hne.
  - destruct (String.eqb_spec k0 k) as [->|Hne0]; simpl.
    + apply String.eqb_neq in Hne. now rewrite Hne.
    + now rewrite IH.
Qed.

Lemma Map_get_delete_other m k k' :
  k <> k' -> Map_get (Map_delete m k) k' = Map_get m k'.
Proof.
  intros Hne. induction m as [|[k0 v0] m IH]; simpl; [reflexivity|].
  destruct (String.eqb_spec k0 k) as [->|Hne0]; simpl.
  - apply String.eqb_neq in Hne. now rewrite Hne.
  - now rewrite IH.
Qed.

Lemma Map_delete_length m k :
  In k (Map_keys m) -> S (List.length (Map_delete m k)) = List.length m.
Proof.
  induction m as [|[k0 v0] m IH]; simpl; [tauto|].
  destruct (String.eqb_spec k0 k) as [->|Hne0]; simpl; [reflexivity|].
  intros [H|H]; [congruence|]. now rewrite IH.
Qed.

Lemma Map_keys_delete m k k' :
  k <> k' -> In k' (Map_keys m) -> In k' (Map_keys (Map_delete m k)).
Proof.
  intros Hne. induction m as [|[k0 v0] m IH]; simpl; [tauto|].
  destruct (String.eqb_spec k0 k) as [->|Hne0]; simpl.
  - intros [H|H]; [congruence|assumption].
  - intros [H|H]; [now left|right; auto].
Qed.

Lemma Map_keys_set_present m k v :
  In k (Map_keys m) -> Map_keys (Map_set m k v) = Map_keys m.
Proof.
  induction m as [|[k0 v0] m IH]; simpl; [tauto|].
  destruct (String.eqb_spec k0 k) as [->|Hne0]; simpl; [reflexivity|].
  intros [H|H]; [congruence|]. now rewrite IH.
Qed.

Lemma Map_keys_set_absent m k v :
  ~ In k (Map_keys m) -> Map_keys (Map_set m k v) = Map_keys m ++ [k].
Proof.
  intros H. apply Map_get_None in H. rewrite Map_set_absent by assumption.
  unfold Map_keys. now rewrite map_app.
Qed.

(** [set] keeps the keys of a map distinct. *)
Lemma Map_set_NoDup m k v :
  NoDup (Map_keys m) -> NoDup (Map_keys (Map_set m k v)).
Proof.
  intros Hnd. destruct (in_dec string_dec k (Map_keys m)) as [Hin|Hout].
  - now rewrite Map_keys_set_present.
  - rewrite Map_keys_set_absent by assumption.
    apply NoDup_app; [assumption|repeat constructor; simpl; tauto|].
    intros x Hx [<-|[]]. contradiction.
Qed.

Lemma Map_keys_delete_incl m k : incl (Map_keys (Map_delete m k)) (Map_keys m).
Proof.
  induction m as [|[k0 v0] m IH]; simpl; [easy|].
  destruct (String.eqb k0 k); simpl.
  - intros x Hx. now right.
  - intros x [Hx|Hx]; [now left|right; auto].
Qed.

(** [delete] keeps the keys of a map distinct. *)
Lemma Map_delete_NoDup m k :
  NoDup (Map_keys m) -> NoDup (Map_keys (Map_delete m k)).
Proof.
  induction m as [|[k0 v0] m IH]; simpl; [easy|].
  intros Hnd. inversion Hnd as [|? ? Hk0 Hnd']; subst.
  destruct (String.eqb k0 k); simpl; [assumption|].
  constructor; [|auto].
  intros Hin. apply Hk0. now apply Map_keys_delete_incl in Hin.
Qed.

Lemma delete_all_NoDup (es : list (string * V)) :
  forall m,
    NoDup (Map_keys m) ->
    NoDup (Map_keys (fold_left (fun t e => Map_delete t (fst e)) es m)).
Proof.
  induction es as [|e es IH]; intros m Hnd; simpl; [assumption|].
  apply IH. now apply Map_delete_NoDup.
Qed.

(** Deleting distinct keys of a map removes one entry per key. *)
Lemma delete_all_length (es : list (string * V)) :
  forall m,
    NoDup (Map_keys es) ->
    incl (Map_keys es) (Map_keys m) ->
    List.length (fold_left (fun t e => Map_delete t (fst e)) es m)
    + List.length es = List.length m.
Proof.
  induction es as [|[k v] es IH]; intros m Hnd Hin; simpl.
  - lia.
  - inversion Hnd as [|? ? Hk Hnd']; subst.
    rewrite <- (Map_delete_length m k) by (apply Hin; now left).
    rewrite <- (IH (Map_delete m k)); [simpl; lia|assumption|].
    intros k' Hk'. apply Map_keys_delete.
    + intros ->. contradiction.
    + apply Hin. now right.
Qed.

(** Deleting other keys leaves the entry of a key as it is. *)
Lemma delete_all_get_other (es : list (string * V)) k :
  forall m,
    ~ In k (Map_keys es) ->
    Map_get (fold_left (fun t e => Map_delete t (fst e)) es m) k = Map_get m k.
Proof.
  induction es as [|[k0 v0] es IH]; intros m Hout; simpl; [reflexivity|].
  rewrite IH by (intros H; apply Hout; now right).
  apply Map_get_delete_other. intros ->. apply Hout. now left.
Qed.
End MapFacts.

(** ** Sorting *)

Section SortFacts.
Variable A : Type.
Variable after : A -> A -> bool.

Lemma insert_length x l : List.length (insert after x l) = S (List.length l).
Proof.
  induction l as [|y l IH]; simpl; [reflexivity|].
  destruct (after x y); simpl; now rewrite ?IH.
Qed.

Lemma sort_length l : List.length (sort after l) = List.length l.
Proof.
  induction l as [|x l IH]; simpl; [reflexivity|].
  now rewrite insert_length, IH.
Qed.

Lemma insert_In x l z : In z (insert after x l) <-> z = x \/ In z l.
Proof.
  induction l as [|y l IH]; simpl.
  - split; intros [H|H]; auto.
  - destruct (after x y); simpl; rewrite ?IH; intuition congruence.
Qed.

Lemma sort_In l z : In z (sort after l) <-> In z l.
Proof.
  induction l as [|x l IH]; simpl; [tauto|].
  rewrite insert_In, IH. intuition congruence.
Qed.

(** An element that nothing has to go behind stays last. *)
Lemma insert_before_last x l y :
  after x y = false -> insert after x (l ++ [y]) = insert after x l ++ [y].
Proof.
  intros Hxy. induction l as [|z l IH]; simpl.
  - now rewrite Hxy.
  - destruct (after x z); simpl; [now rewrite IH|reflexivity].
Qed.

Lemma sort_keeps_last l y :
  (forall x, In x l -> after x y = false) ->
  sort after (l ++ [y]) = sort after l ++ [y].
Proof.
  induction l as [|x l IH]; intros H; simpl; [reflexivity|].
  rewrite IH by (intros; apply H; now right).
  apply insert_before_last. apply H. now left.
Qed.

Lemma insert_Permutation x l : Permutation (insert after x l) (x :: l).
Proof.
  induction l as [|y l IH]; simpl; [reflexivity|].
  destruct (after x y); [|reflexivity].
  rewrite IH. apply perm_swap.
Qed.

(** Sorting rearranges. *)
Lemma sort_Permutation l : Permutation (sort after l) l.
Proof.
  induction l as [|x l IH]; simpl; [reflexivity|].
  rewrite insert_Permutation. now constructor.
Qed.
End SortFacts.

Lemma firstn_NoDup (A : Type) (n : nat) (l : list A) :
  NoDup l -> NoDup (firstn n l).
Proof.
  intros H. rewrite <- (firstn_skipn n l) in H.
  now apply NoDup_app_remove_r in H.
Qed.

Lemma firstn_incl (A : Type) (n : nat) (l : list A) : incl (firstn n l) l.
Proof.
  intros x Hx. rewrite <- (firstn_skipn n l). apply in_or_app. now left.
Qed.

End JSFacts.

(* ================================================================== *)
(** * The router: routing *)
(* ================================================================== *)

Module RouterFacts.
Import JS JSFacts QLearningRouter Runs.
Local Open Scope string_scope.
Local Open Scope list_scope.

(** ** Reading the table *)

(** [getQValues] changes nothing. *)
Lemma getQValues_frame k w : getQValues k w = (fst (getQValues k w), w).
Proof.
  unfold getQValues, bind, self, ret.
  now destruct (Map_get (qTable (this w)) k).
Qed.

Lemma getQValues_present k w entry :
  Map_get (qTable (this w)) k = Some entry ->
  fst (getQValues k w) = qValues entry.
Proof. unfold getQValues, bind, self, ret. now intros ->. Qed.

Lemma getQValues_absent k w :
  Map_get (qTable (this w)) k = None ->
  fst (getQValues k w) = repeat zero (numActions (config (this w))).
Proof. unfold getQValues, bind, self, ret. now intros ->. Qed.

(** What [getQValues] returns depends on the router object only. *)
Lemma getQValues_this k w w' :
  this w = this w' -> fst (getQValues k w) = fst (getQValues k w').
Proof.
  unfold getQValues, bind, self, ret. intros ->.
  now destruct (Map_get (qTable (this w')) k).
Qed.

(** ** [argmax] *)

Lemma argmax_from_spec rest :
  forall pre maxIdx maxVal,
    nth_error pre maxIdx = Some maxVal ->
    (forall j v, nth_error pre j = Some v -> gt v maxVal = false) ->
    (forall j v, j < maxIdx -> nth_error pre j = Some v -> ge v maxVal = false) ->
    exists best,
      nth_error (pre ++ rest)
        (argmax_from rest (List.length pre) maxIdx maxVal) = Some best
      /\ (forall j v, nth_error (pre ++ rest) j = Some v -> gt v best = false)
      /\ (forall j v,
            j < argmax_from rest (List.length pre) maxIdx maxVal ->
            nth_error (pre ++ rest) j = Some v -> ge v best = false).
Proof.
  induction rest as [|x rest IH]; intros pre maxIdx maxVal Hmax Hgt Hge; simpl.
  - rewrite app_nil_r. eauto.
  - assert (Hlen : maxIdx < List.length pre)
      by (apply nth_error_Some; congruence).
    replace (pre ++ x :: rest) with ((pre ++ [x]) ++ rest)
      by (now rewrite <- app_assoc).
    replace (S (List.length pre)) with (List.length (pre ++ [x]))
      by (rewrite length_app; simpl; lia).
    destruct (gt x maxVal) eqn:Hx; apply IH.
    + rewrite nth_error_app2, Nat.sub_diag by lia. reflexivity.
    + intros j v Hj.
      destruct (Nat.lt_ge_cases j (List.length pre)) as [Hlt|Hle].
      * rewrite nth_error_app1 in Hj by assumption.
        destruct (gt v x) eqn:Hvx; [|reflexivity].
        rewrite <- (Hgt j v Hj). symmetry. eapply gt_trans; eassumption.
      * rewrite nth_error_app2 in Hj by assumption.
        destruct (j - List.length pre) as [|n]; simpl in Hj.
        -- injection Hj as <-. apply gt_irrefl.
        -- now destruct n.
    + intros j v Hlt Hj.
      rewrite nth_error_app1 in Hj by assumption.
      destruct (ge v x) eqn:Hvx; [|reflexivity].
      rewrite <- (Hgt j v Hj). symmetry. eapply ge_gt_trans; eassumption.
    + rewrite nth_error_app1 by assumption. assumption.
    + intros j v Hj.
      destruct (Nat.lt_ge_cases j (List.length pre)) as [Hlt|Hle].
      * rewrite nth_error_app1 in Hj by assumption. eauto.
      * rewrite nth_error_app2 in Hj by assumption.
        destruct (j - List.length pre) as [|n]; simpl in Hj.
        -- now injection Hj as <-.
        -- now destruct n.
    + intros j v Hlt Hj.
      rewrite nth_error_app1 in Hj by lia. eauto.
Qed.

(** [argmax] returns the lowest index of a greatest value: no value is
    greater than the one it selects, and no earlier value is as great. *)
Lemma argmax_spec values :
  (forall j v, nth_error values j = Some v ->
               gt v (nth (argmax values) values nan) = false)
  /\ (forall j v, j < argmax values -> nth_error values j = Some v ->
                  ge v (nth (argmax values) values nan) = false)
  /\ (argmax values < List.length values \/ values = []).
Proof.
  destruct values as [|v0 rest].
  - repeat split; auto; intros j v; now destruct j.
  - destruct (@argmax_from_spec rest [v0] 0 v0) as (best & Hbest & Hgt & Hge).
    + reflexivity.
    + intros [|[|j]] v; simpl; try discriminate.
      intros [= <-]. apply gt_irrefl.
    + intros j v Hj. lia.
    + change (argmax (v0 :: rest)) with (argmax_from rest 1 0 v0).
      change ([v0] ++ rest) with (v0 :: rest) in *.
      change (List.length [v0]) with 1 in *.
      assert (Hn : nth (argmax_from rest 1 0 v0) (v0 :: rest) nan = best)
        by (apply nth_error_nth; exact Hbest).
      rewrite Hn.
      repeat split; auto. left. apply nth_error_Some. congruence.
Qed.

(** Every route name is a non-empty string. *)
Lemma route_name_or_else i name :
  nth_error ROUTE_NAMES i = Some name -> or_else (Some name) "coder" = name.
Proof.
  do 8 (destruct i as [|i]; [intros [= <-]; reflexivity|]).
  now destruct i.
Qed.

(** ** The steps of [route] *)

Lemma route_run E taskContext explore w :
  let qValues := fst (getQValues (hashState taskContext) w) in
  route E taskContext explore w =
    if explore then
      if PrimFloat.ltb (Math_random E (draws w)) (epsilon (this w)) then
        (decision_of E
           (array_index
              (Math_floor (Math_random E (S (draws w))
                           * of_nat (numActions (config (this w))))%float))
           qValues true,
         after_draws w 2)
      else (decision_of E (Some (argmax qValues)) qValues false, after_draws w 1)
    else (decision_of E (Some (argmax qValues)) qValues false, w).
Proof.
  intros qValues. unfold route, bind, ret, random, self.
  destruct explore.
  - destruct (PrimFloat.ltb _ _);
      match goal with
      | |- context [getQValues ?k ?w0] =>
          rewrite (getQValues_frame k w0), (@getQValues_this k w0 w eq_refl)
      end; reflexivity.
  - rewrite getQValues_frame. reflexivity.
Qed.

(** ** Greedy routing *)

(** What [route(taskContext, false)] returns, with the world as it
    was. *)
Lemma route_greedy_run E taskContext w :
  let qValues := fst (getQValues (hashState taskContext) w) in
  exists confidence alternatives,
    route E taskContext false w =
      ({| d_route :=
            or_else (nth_error ROUTE_NAMES (argmax qValues)) "coder";
          d_confidence := confidence;
          d_qValues := qValues;
          d_explored := false;
          d_alternatives := alternatives |}, w)
    /\ forall E' w',
         Math_exp E' = Math_exp E -> this w' = this w ->
         fst (route E' taskContext false w') = fst (route E taskContext false w).
Proof.
  intros qValues. rewrite route_run. fold qValues.
  do 2 eexists. split; [reflexivity|].
  intros E' w' HE Hw. rewrite route_run.
  rewrite (getQValues_this (hashState taskContext) w' w Hw). fold qValues.
  unfold decision_of, softmaxConfidence. cbn [fst]. now rewrite HE.
Qed.

(** ** [route] changes nothing *)

Lemma route_frame E taskContext explore w :
  this (snd (route E taskContext explore w)) = this w.
Proof.
  rewrite route_run.
  destruct explore; [destruct (PrimFloat.ltb _ _)|]; reflexivity.
Qed.

Lemma route_all_frame E calls :
  forall w, this (snd (route_all E calls w)) = this w.
Proof.
  induction calls as [|[taskContext explore] calls IH]; intros w; simpl.
  - reflexivity.
  - unfold bind.
    pose proof (route_frame E taskContext explore w) as Hr.
    destruct (route E taskContext explore w) as [d w1]. cbn [snd] in Hr.
    specialize (IH w1).
    destruct (route_all E calls w1) as [ds w2]. cbn [snd ret] in *. congruence.
Qed.

Lemma route_qValues E taskContext explore w :
  d_qValues (fst (route E taskContext explore w))
  = fst (getQValues (hashState taskContext) w).
Proof.
  rewrite route_run.
  destruct explore; [destruct (PrimFloat.ltb _ _)|]; reflexivity.
Qed.

(** C9.  [route] is a pure query of the router: whatever the task and
    the [explore] flag, the router object after the call is the one
    before it, so the table has the same size; a state key with no entry
    is read as [numActions] zeros and still has no entry afterwards; and
    any sequence of [route] calls leaves the table as it was. *)
Theorem route_is_a_pure_query :
  forall (E : Engine) (w : World) (taskContext : text) (explore : bool),
    this (snd (route E taskContext explore w)) = this w
    /\ Map_size (qTable (this (snd (route E taskContext explore w))))
       = Map_size (qTable (this w))
    /\ (Map_get (qTable (this w)) (hashState taskContext) = None ->
        d_qValues (fst (route E taskContext explore w))
        = repeat zero (numActions (config (this w)))
        /\ Map_get (qTable (this (snd (route E taskContext explore w))))
             (hashState taskContext) = None)
    /\ (forall calls : list (text * bool),
          qTable (this (snd (route_all E calls w))) = qTable (this w)).
Proof.
  intros E w taskContext explore.
  rewrite route_frame. repeat split; auto.
  - rewrite route_qValues. now apply getQValues_absent.
  - intros calls. now rewrite route_all_frame.
Qed.

Lemma route_is_a_pure_query_witness :
  let w := fresh DEFAULT_CONFIG in
  let taskContext := utf16 "review the audit" in
  Map_get (qTable (this w)) (hashState taskContext) = None
  /\ d_qValues (fst (route engine taskContext true w))
     = [0; 0; 0; 0; 0; 0; 0; 0]%float
  /\ Map_size (qTable (this (snd (route engine taskContext true w)))) = 0.
Proof.
  intros w taskContext.
  assert (Hnew : Map_get (qTable (this w)) (hashState taskContext) = None)
    by reflexivity.
  destruct (route_is_a_pure_query engine w taskContext true)
    as (_ & Hsize & Habsent & _).
  split; [exact Hnew|]. split.
  - exact (proj1 (Habsent Hnew)).
  - exact Hsize.
Defined.

(* ================================================================== *)
(** * The router: learning *)
(* ================================================================== *)

Lemma indexOf_None names action :
  indexOf names action = None <-> ~ In action names.
Proof.
  induction names as [|name names IH]; simpl.
  - tauto.
  - destruct (String.eqb_spec name action) as [->|Hne].
    + split; [discriminate|]. intros H. exfalso. apply H. now left.
    + destruct (indexOf names action).
      * split; [discriminate|]. intros H.
        assert (Hnot : ~ In action names) by (intros Hin; apply H; now right).
        apply IH in Hnot. discriminate.
      * split; [|reflexivity]. intros _ [H|H]; [congruence|].
        now apply (proj1 IH eq_refl).
Qed.

(** C7.  [update] with an action that is not one of the route names
    returns 0 and leaves the world exactly as it was: the table, epsilon,
    the step and update counts, the average TD error, the replay buffer and
    the cache are those of before, and no clock reading or random draw is
    made. *)
Theorem update_unknown_action_is_noop :
  forall (E : Engine) (w : World) (taskContext : text) (action : string)
         (reward : number) (nextContext : option text),
    ~ In action ROUTE_NAMES ->
    update E taskContext action reward nextContext w = (zero, w).
Proof.
  intros E w taskContext action reward nextContext Hnot.
  apply indexOf_None in Hnot. unfold update. now rewrite Hnot.
Qed.

Lemma update_unknown_action_is_noop_witness :
  ~ In "manager" ROUTE_NAMES
  /\ update engine (utf16 "fix login bug") "manager" 1%float None trained
     = (zero, trained).
Proof.
  assert (H : ~ In "manager" ROUTE_NAMES).
  { apply indexOf_None. reflexivity. }
  split; [exact H|].
  exact (update_unknown_action_is_noop engine trained (utf16 "fix login bug")
           1%float None H).
Defined.

(** ** The steps of [update] *)

(** Reading a field of a record that was just built. *)
Ltac fields :=
  cbn [this draws ticks config qTable epsilon stepCount updateCount avgTDError
       useNative replayBuffer replayBufferIdx totalExperiences routeCache
       cacheOrder cacheHits cacheMisses featureHashCache
       qValues visits lastUpdate
       set_qTable set_exploration set_tdStats with_table fst snd] in *.

Lemma with_table_same w : with_table w (qTable (this w)) = w.
Proof. now destruct w as [[] ? ?]. Qed.

Lemma with_table_twice w t t' : with_table (with_table w t) t' = with_table w t'.
Proof. reflexivity. Qed.

Lemma forEach_delete (es : list (string * QEntry)) :
  forall w,
    forEach es
      (fun e => assign (fun r => set_qTable r (Map_delete (qTable r) (fst e)))) w
    = (tt, with_table w
             (fold_left (fun t e => Map_delete t (fst e)) es (qTable (this w)))).
Proof.
  induction es as [|e es IH]; intros w; simpl.
  - unfold ret. now rewrite with_table_same.
  - unfold bind at 1. unfold assign at 1. rewrite IH. reflexivity.
Qed.

Lemma pruneQTable_run w :
  pruneQTable w = (tt, with_table w (pruned (config (this w)) (qTable (this w)))).
Proof.
  unfold pruneQTable, bind, self. now rewrite forEach_delete.
Qed.

Lemma getOrCreateEntry_run E k w :
  getOrCreateEntry E k w =
    match Map_get (qTable (this w)) k with
    | Some entry => (entry, w)
    | None =>
        let entry := {| qValues := Float32Array_new (numActions (config (this w)));
                        visits := zero;
                        lastUpdate := Date_now E (ticks w) |} in
        (entry,
         {| this := set_qTable (this w) (Map_set (qTable (this w)) k entry);
            draws := draws w;
            ticks := S (ticks w) |})
    end.
Proof.
  unfold getOrCreateEntry, bind, self, now, assign, ret.
  now destruct (Map_get (qTable (this w)) k).
Qed.

(** The target of the temporal-difference step is computed without any
    change of the world. *)
Lemma target_frame (reward : number) (nextContext : option text) w :
  (match nextContext with
   | Some (c :: cs) =>
       r <- self ;;
       nextQValues <- getQValues (hashState (c :: cs)) ;;
       ret (reward + gamma (config r) * Math_max nextQValues)%float
   | _ => ret reward
   end) w
  = (fst ((match nextContext with
           | Some (c :: cs) =>
               r <- self ;;
               nextQValues <- getQValues (hashState (c :: cs)) ;;
               ret (reward + gamma (config r) * Math_max nextQValues)%float
           | _ => ret reward
           end) w), w).
Proof.
  destruct nextContext as [[|c cs]|]; try reflexivity.
  unfold bind, self, ret. now rewrite getQValues_frame.
Qed.

(** What a call of [update] with a route name does to the router: the
    entry of the state is rewritten in place with the time of the call,
    the step count grows by one and epsilon is recomputed from it, the
    table is pruned when it has grown past [maxStates], and nothing else
    but the TD statistics changes. *)
Lemma update_effects E taskContext action actionIdx reward nextContext w :
  indexOf ROUTE_NAMES action = Some actionIdx ->
  let key := hashState taskContext in
  let w1 := snd (getOrCreateEntry E key w) in
  let r' := this (snd (update E taskContext action reward nextContext w)) in
  exists entry' : QEntry,
    lastUpdate entry' = Date_now E (ticks w1)
    /\ qTable r' =
         (let table := Map_set (qTable (this w1)) key entry' in
          if (maxStates (config (this w)) <? Map_size table)%nat
          then pruned (config (this w)) table else table)
    /\ config r' = config (this w)
    /\ stepCount r' = (stepCount (this w) + 1)%float
    /\ epsilon r' =
         Math_max [explorationFinal (config (this w));
                   (explorationInitial (config (this w))
                    - (stepCount (this w) + 1)
                      / explorationDecay (config (this w)))%float]
    /\ updateCount r' = (updateCount (this w) + 1)%float
    /\ replayBuffer r' = replayBuffer (this w)
    /\ routeCache r' = routeCache (this w).
Proof.
  intros Hidx key w1 r'. subst r' w1.
  destruct (update E taskContext action reward nextContext w) as [td W] eqn:Hupd.
  unfold update in Hupd. rewrite Hidx in Hupd. fold key in Hupd.
  unfold bind at 1 in Hupd. rewrite getOrCreateEntry_run in *.
  destruct w as [r d n]. destruct r. fields.
  destruct (Map_get qTable0 key) as [entry|] eqn:Hget; fields;
    unfold bind at 1 in Hupd; rewrite target_frame in Hupd; fields;
    unfold bind, self, now, assign, ret in Hupd; fields;
    match type of Hupd with
    | context [Map_set _ key (Build_QEntry ?q ?v ?l)] =>
        exists (Build_QEntry q v l)
    end;
    match type of Hupd with
    | context [(?a <? ?b)%nat] => destruct (a <? b)%nat eqn:Hfull
    end;
    rewrite ?pruneQTable_run in Hupd; fields;
    injection Hupd as <- <-; fields; repeat split; reflexivity.
Qed.

(** ** Pruning *)

(** [Math.floor(maxStates * 0.8)] computed on numbers is the quotient
    [4 * maxStates / 5] on sample capacities. *)
Lemma capacity_floor_is_integer_quotient :
  forallb (fun n => match array_index (Math_floor (of_nat n * 0.8)%float) with
                    | Some k => (k =? (4 * n) / 5)%nat
                    | None => false
                    end)
    (seq 0 128 ++ [1000; 4096; 10000; 65535; 1000000]) = true.
Proof. vm_compute. reflexivity. Qed.

Lemma sorted_keys_NoDup (t : Map QEntry) :
  NoDup (Map_keys t) -> NoDup (Map_keys (sort older_first t)).
Proof.
  intros H. unfold Map_keys.
  eapply Permutation_NoDup; [|exact H].
  apply Permutation_map. symmetry. apply sort_Permutation.
Qed.

(** Pruning a table that is larger than 80% of [maxStates] leaves exactly
    that many entries. *)
Lemma pruned_length cfg (t : Map QEntry) :
  NoDup (Map_keys t) ->
  (4 * maxStates cfg) / 5 <= List.length t ->
  List.length (pruned cfg t) = (4 * maxStates cfg) / 5.
Proof.
  intros Hnd Hle. unfold pruned. rewrite sort_length.
  set (n := List.length t - (4 * maxStates cfg) / 5).
  pose proof (@delete_all_length QEntry (firstn n (sort older_first t)) t) as H.
  rewrite length_firstn, sort_length in H.
  assert (Hn : Nat.min n (List.length t) = n) by (subst n; lia).
  rewrite Hn in H. subst n.
  enough (List.length
            (fold_left (fun t0 e => Map_delete t0 (fst e))
               (firstn (List.length t - (4 * maxStates cfg) / 5)
                  (sort older_first t)) t)
          + (List.length t - (4 * maxStates cfg) / 5) = List.length t) by lia.
  apply H.
  - unfold Map_keys. rewrite <- firstn_map. apply firstn_NoDup.
    now apply sorted_keys_NoDup.
  - unfold Map_keys. rewrite <- firstn_map.
    intros k Hk. apply firstn_incl in Hk.
    eapply Permutation_in; [|exact Hk].
    apply Permutation_map. apply sort_Permutation.
Qed.

(** The entry that is last in the table and no older than any other one
    survives pruning as soon as 80% of [maxStates] is at least one
    entry. *)
Lemma pruned_keeps_newest cfg (t : Map QEntry) k entry :
  Map_get t k = None ->
  (forall k0 e0, In (k0, e0) t -> (lastUpdate e0 <= lastUpdate entry)%Z) ->
  1 <= (4 * maxStates cfg) / 5 ->
  Map_get (pruned cfg (t ++ [(k, entry)])) k = Some entry.
Proof.
  intros Hnew Hold Hkeep. unfold pruned.
  rewrite sort_keeps_last.
  2:{ intros [k0 e0] Hin. unfold older_first. simpl.
      apply Z.ltb_ge. specialize (Hold k0 e0 Hin). lia. }
  rewrite length_app, sort_length. simpl List.length.
  rewrite firstn_app, sort_length.
  replace (List.length t + 1 - (4 * maxStates cfg) / 5 - List.length t)
    with 0 by lia.
  simpl firstn. rewrite app_nil_r.
  rewrite delete_all_get_other.
  - rewrite <- (Map_set_absent t k entry Hnew). apply Map_get_set_same.
  - intros Hin. unfold Map_keys in Hin. rewrite <- firstn_map in Hin.
    apply firstn_incl in Hin.
    apply (Permutation_in _ (Permutation_map fst (sort_Permutation older_first t)))
      in Hin.
    now apply Map_get_None in Hnew.
Qed.

Lemma two_states_run :
  learn ["a"; "b"] (fresh (with_maxStates DEFAULT_CONFIG 2)) = two_states.
Proof. vm_compute. reflexivity. Qed.

Lemma one_state_run :
  learn ["a"] (fresh (with_maxStates DEFAULT_CONFIG 1)) = one_state.
Proof. vm_compute. reflexivity. Qed.

(** With [maxStates = 1] pruning keeps [4 * 1 / 5 = 0] entries: the
    update of a second state empties the table, and the entry it has
    just created and updated is among the evicted ones. *)
Lemma update_with_capacity_one_evicts_its_entry :
  let w' := snd (update engine (utf16 "b") "coder" 1%float None one_state) in
  maxStates (config (this one_state)) = 1
  /\ Map_size (qTable (this one_state)) = 1
  /\ Map_has (qTable (this one_state)) (hashState (utf16 "b")) = false
  /\ qTable (this w') = []
  /\ Map_has (qTable (this w')) (hashState (utf16 "b")) = false.
Proof. vm_compute. repeat split. Qed.

(** ** Exploration decay *)

(** C4.  Whatever [explorationDecayType] is configured, an [update] with
    a route name counts one more step and sets epsilon by the linear law,
    [max(final, initial - step / decay)], of the new step count. *)
Theorem update_decays_epsilon_linearly :
  forall (E : Engine) (w : World) (taskContext : text) (action : string)
         (reward : number) (nextContext : option text),
    In action ROUTE_NAMES ->
    let cfg := config (this w) in
    let r' := this (snd (update E taskContext action reward nextContext w)) in
    stepCount r' = (stepCount (this w) + 1)%float
    /\ epsilon r' =
         Math_max [explorationFinal cfg;
                   (explorationInitial cfg
                    - stepCount r' / explorationDecay cfg)%float].
Proof.
  intros E w taskContext action reward nextContext Hact cfg r'.
  destruct (indexOf ROUTE_NAMES action) as [actionIdx|] eqn:Hidx;
    [|apply indexOf_None in Hidx; contradiction].
  destruct (@update_effects E taskContext action actionIdx reward nextContext
              w Hidx) as (_ & _ & _ & _ & Hsteps & Heps & _).
  fold r' cfg in Hsteps, Heps. now rewrite Hsteps.
Qed.

(** Under the default configuration, whose decay type is [exponential],
    the first update leaves epsilon at [1 - 1 / 10000], which is not the
    value of the exponential law. *)
Lemma update_decays_epsilon_linearly_witness :
  let w' := snd (update engine (utf16 "fix login bug") "coder" 1%float None
                   (fresh DEFAULT_CONFIG)) in
  In "coder" ROUTE_NAMES
  /\ explorationDecayType DEFAULT_CONFIG = exponential
  /\ stepCount (this w') = 1%float
  /\ epsilon (this w') = 0.9999%float
  /\ exponential_law engine DEFAULT_CONFIG 1%float = 0.99990100494983503%float.
Proof.
  intros w'.
  assert (Hact : In "coder" ROUTE_NAMES) by (now left).
  destruct (update_decays_epsilon_linearly engine (fresh DEFAULT_CONFIG)
              (utf16 "fix login bug") 1%float None Hact) as (Hsteps & Heps).
  fold w' in Hsteps, Heps.
  split; [exact Hact|]. split; [reflexivity|].
  split; [rewrite Hsteps; vm_compute; reflexivity|].
  split; [rewrite Heps, Hsteps; vm_compute; reflexivity|].
  vm_compute. reflexivity.
Defined.

(* ================================================================== *)
(** * The router: persistence and the decision cache *)
(* ================================================================== *)

Lemma forEach_import E (data : list (string * ExportedEntry)) :
  forall w,
    forEach data (fun ke =>
      t <- now E ;;
      assign (fun r =>
        set_qTable r
          (Map_set (qTable r) (fst ke)
             {| qValues := Float32Array_from (x_qValues (snd ke));
                visits := x_visits (snd ke);
                lastUpdate := t |}))) w
    = (tt, {| this := set_qTable (this w)
                        (imported E (ticks w) data (qTable (this w)));
              draws := draws w;
              ticks := ticks w + List.length data |}).
Proof.
  induction data as [|[k x] data IH]; intros w; simpl.
  - unfold ret. destruct w as [[] ? ?]. simpl. now rewrite Nat.add_0_r.
  - unfold bind at 1. unfold bind at 1. unfold now at 1. unfold assign at 1.
    rewrite IH. fields. rewrite Nat.add_succ_r. reflexivity.
Qed.

Lemma import_run E data w :
  import E data w
  = (tt, {| this := set_qTable (this w) (imported E (ticks w) data []);
            draws := draws w;
            ticks := ticks w + List.length data |}).
Proof.
  unfold import. unfold bind at 1. unfold assign at 1.
  now rewrite forEach_import.
Qed.

Lemma imported_get_other E data k :
  forall n t,
    ~ In k (map fst data) ->
    Map_get (imported E n data t) k = Map_get t k.
Proof.
  induction data as [|[k0 x0] data IH]; intros n t Hout; simpl; [reflexivity|].
  rewrite IH by (intros H; apply Hout; now right).
  apply Map_get_set_other. intros ->. apply Hout. now left.
Qed.

Lemma imported_get E data k x :
  forall n t,
    NoDup (map fst data) ->
    In (k, x) data ->
    exists i,
      i < List.length data
      /\ Map_get (imported E n data t) k
         = Some {| qValues := Float32Array_from (x_qValues x);
                   visits := x_visits x;
                   lastUpdate := Date_now E (n + i) |}.
Proof.
  induction data as [|[k0 x0] data IH]; intros n t Hnd Hin; simpl in *; [tauto|].
  inversion Hnd as [|? ? Hk0 Hnd']; subst.
  destruct Hin as [[= -> ->]|Hin].
  - exists 0. split; [lia|].
    rewrite imported_get_other by assumption.
    rewrite Map_get_set_same, Nat.add_0_r. reflexivity.
  - destruct (IH (S n)
                (Map_set t k0
                   {| qValues := Float32Array_from (x_qValues x0);
                      visits := x_visits x0;
                      lastUpdate := Date_now E n |}) Hnd' Hin)
      as (i & Hi & Hget).
    exists (S i). split; [lia|].
    rewrite Hget. now rewrite Nat.add_succ_r.
Qed.

(** C3 (amended).  [import] validates nothing and cannot fail: whatever
    the rows of [data] are, it returns, the table afterwards holds exactly
    the keys of [data] (each row rounded to binary32 and kept at its own
    length, with the visit count of [data] and the time of its insertion),
    no entry of the previous table remains, and the configuration, epsilon,
    the step and update counts, the average TD error, the replay buffer
    and the cache are those of before. *)
Theorem import_replaces_the_table_unchecked :
  forall (E : Engine) (w : World) (data : list (string * ExportedEntry)),
    let w' := snd (import E data w) in
    fst (import E data w) = tt
    /\ (NoDup (map fst data) ->
        forall k x, In (k, x) data ->
          exists i,
            i < List.length data
            /\ Map_get (qTable (this w')) k
               = Some {| qValues := map fround (x_qValues x);
                         visits := x_visits x;
                         lastUpdate := Date_now E (ticks w + i) |})
    /\ (forall k, ~ In k (map fst data) -> Map_get (qTable (this w')) k = None)
    /\ config (this w') = config (this w)
    /\ epsilon (this w') = epsilon (this w)
    /\ stepCount (this w') = stepCount (this w)
    /\ updateCount (this w') = updateCount (this w)
    /\ avgTDError (this w') = avgTDError (this w)
    /\ replayBuffer (this w') = replayBuffer (this w)
    /\ routeCache (this w') = routeCache (this w).
Proof.
  intros E w data w'. subst w'. rewrite import_run. fields.
  split; [reflexivity|]. split; [|split; [|now repeat split]].
  - intros Hnd k x Hin. now apply imported_get.
  - intros k Hout. now rewrite imported_get_other.
Qed.

Lemma import_replaces_the_table_unchecked_witness :
  let row := {| x_qValues := [1; 2; 3]%float; x_visits := 1%float |} in
  let w' := snd (import engine [("state_97", row)] trained) in
  NoDup (map fst [("state_97", row)])
  /\ In ("state_97", row) [("state_97", row)]
  /\ Map_get (qTable (this w')) "state_97"
     = Some {| qValues := [1; 2; 3]%float;
               visits := 1%float;
               lastUpdate := 1700000000002 |}
  /\ epsilon (this w') = 0.9999%float.
Proof.
  intros row w'.
  assert (Hnd : NoDup (map fst [("state_97", row)]))
    by (repeat constructor; simpl; tauto).
  assert (Hin : In ("state_97", row) [("state_97", row)]) by (now left).
  destruct (import_replaces_the_table_unchecked engine trained
              [("state_97", row)]) as (_ & Hget & _ & _ & Heps & _).
  destruct (Hget Hnd "state_97" row Hin) as (i & Hi & Hrow).
  split; [exact Hnd|]. split; [exact Hin|]. split.
  - fold w' in Hrow. rewrite Hrow.
    simpl in Hi. replace i with 0 by lia. vm_compute. reflexivity.
  - fold w' in Heps. rewrite Heps. vm_compute. reflexivity.
Defined.

(** An import of one row of three values into the trained default
    router (eight actions) goes through: the row is stored, and the entry
    that the router had learned is gone. *)
Lemma import_accepts_a_row_of_three_values :
  let data := [("state_97", {| x_qValues := [1; 2; 3]%float;
                               x_visits := 1%float |})] in
  let w' := snd (import engine data trained) in
  rows_match (config (this trained)) data = false
  /\ Map_has (qTable (this trained)) (hashState (utf16 "fix login bug")) = true
  /\ fst (import engine data trained) = tt
  /\ qTable (this w')
     = [("state_97", {| qValues := [1; 2; 3]%float;
                        visits := 1%float;
                        lastUpdate := 1700000000002 |})]
  /\ Map_has (qTable (this w')) (hashState (utf16 "fix login bug")) = false.
Proof. vm_compute. repeat split. Qed.

(** ** The keys of the table *)

Lemma imported_NoDup E data :
  forall n t, NoDup (Map_keys t) -> NoDup (Map_keys (imported E n data t)).
Proof.
  induction data as [|[k x] data IH]; intros n t Hnd; simpl; [assumption|].
  apply IH. now apply Map_set_NoDup.
Qed.

(** The state keys of the table stay distinct: [update] keeps them so,
    and [import] builds a table of distinct keys. *)
Lemma table_keys_stay_distinct E w :
  (forall taskContext action reward nextContext,
      NoDup (Map_keys (qTable (this w))) ->
      NoDup (Map_keys (qTable (this
        (snd (update E taskContext action reward nextContext w))))))
  /\ (forall data, NoDup (Map_keys (qTable (this (snd (import E data w)))))).
Proof.
  split.
  - intros taskContext action reward nextContext Hnd.
    destruct (indexOf ROUTE_NAMES action) as [actionIdx|] eqn:Hidx.
    + destruct (@update_effects E taskContext action actionIdx reward
                  nextContext w Hidx) as (entry' & _ & Htable & _).
      rewrite Htable. cbv zeta.
      assert (Hnd' : NoDup (Map_keys
                (Map_set
                   (qTable (this (snd (getOrCreateEntry E
                                         (hashState taskContext) w))))
                   (hashState taskContext) entry'))).
      { apply Map_set_NoDup. rewrite getOrCreateEntry_run.
        destruct (Map_get (qTable (this w)) (hashState taskContext)); fields;
          [assumption|now apply Map_set_NoDup]. }
      destruct (_ <? _)%nat; [|assumption].
      unfold pruned. now apply delete_all_NoDup.
    + unfold update. now rewrite Hidx.
  - intros data. rewrite import_run. fields.
    apply imported_NoDup. constructor.
Qed.

(** ** Round trip *)

(** A greedy decision is a function of the row of Q-values that the
    router reads for the state. *)
Lemma route_greedy_same_qValues E taskContext w1 w2 :
  fst (getQValues (hashState taskContext) w1)
  = fst (getQValues (hashState taskContext) w2) ->
  fst (route E taskContext false w1) = fst (route E taskContext false w2).
Proof.
  intros H. unfold route, bind, ret.
  rewrite (getQValues_frame _ w1), (getQValues_frame _ w2), H. reflexivity.
Qed.

Lemma export_run w :
  export w
  = (fold_left
       (fun result ke => Object_set result (fst ke) (exported_entry (snd ke)))
       (qTable (this w)) (Object_new ExportedEntry), w).
Proof. reflexivity. Qed.

Lemma filter_split {X} (f : X -> bool) (l : list X) :
  Permutation (filter f l ++ filter (fun x => negb (f x)) l) l.
Proof.
  induction l as [|x l IH]; simpl; [constructor|].
  destruct (f x); simpl.
  - now constructor.
  - apply Permutation_sym. apply Permutation_cons_app.
    now apply Permutation_sym.
Qed.

(** [Object.entries] lists every own property once. *)
Lemma Object_entries_Permutation {V} (o : Obj V) :
  Permutation (Object_entries o) (own o).
Proof.
  unfold Object_entries.
  eapply Permutation_trans; [|apply (filter_split (fun kv => is_index_key (fst kv)))].
  apply Permutation_app_tail. apply sort_Permutation.
Qed.

Lemma Map_get_app {V} (m m' : Map V) k :
  Map_get (m ++ m') k
  = match Map_get m k with Some v => Some v | None => Map_get m' k end.
Proof.
  induction m as [|[k0 v0] m IH]; simpl; [reflexivity|].
  now destruct (String.eqb k0 k).
Qed.

(** The object built from [{}] by one assignment per row, the keys of
    the rows being distinct: its own properties are the rows under keys
    other than [__proto__], in their order, and its prototype was
    replaced by the row under [__proto__], if there is one. *)
Lemma Object_of_rows {V} (rows : list (string * V)) :
  NoDup (map fst rows) ->
  let o := fold_left (fun o kx => Object_set o (fst kx) (snd kx)) rows
             (Object_new V) in
  own o = filter ordinary_key rows /\ proto o = Map_get rows "__proto__".
Proof.
  induction rows as [|[k x] rows IH] using rev_ind; intros Hnd;
    [now split|].
  rewrite map_app in Hnd. simpl in Hnd.
  assert (Hnd' : NoDup (map fst rows)) by (eapply NoDup_app_remove_r; exact Hnd).
  destruct (IH Hnd') as [Hown Hproto].
  cbv zeta. rewrite fold_left_app, filter_app, Map_get_app. simpl.
  unfold ordinary_key at 2. cbn [fst snd].
  apply NoDup_remove_2 in Hnd. rewrite app_nil_r in Hnd.
  set (o := fold_left _ rows (Object_new V)) in *.
  unfold Object_set.
  destruct (String.eqb k "__proto__") eqn:Hk; simpl.
  - rewrite app_nil_r. split; [exact Hown|].
    apply String.eqb_eq in Hk. subst k.
    apply Map_get_None in Hnd. now rewrite Hnd.
  - rewrite Hown, Hproto. split.
    + apply Map_set_absent. apply Map_get_None.
      intros Hin. apply Hnd. unfold Map_keys in Hin.
      apply in_map_iff in Hin. destruct Hin as (kx & <- & Hin).
      apply filter_In in Hin. now apply in_map.
    + now destruct (Map_get rows "__proto__").
Qed.

Lemma export_rows w :
  fst (export w)
  = fold_left (fun o kx => Object_set o (fst kx) (snd kx))
      (map exported (qTable (this w))) (Object_new ExportedEntry).
Proof.
  rewrite export_run. cbn [fst].
  generalize (Object_new ExportedEntry).
  induction (qTable (this w)) as [|ke t IH]; intros o; simpl; [reflexivity|].
  apply IH.
Qed.

Lemma hashState_ordinary taskContext :
  String.eqb (hashState taskContext) "__proto__" = false.
Proof. reflexivity. Qed.

(** C8 (amended).  After [export()] and [import()] of the exported data
    into a fresh router (of any configuration), a greedy call,
    [route(taskContext, false)], on a state that has an entry in the
    original router returns the decision that the original router
    returns. *)
Theorem export_import_preserves_greedy_routes :
  forall (E : Engine) (w : World) (cfg : QLearningRouterConfig) (d n : nat)
         (taskContext : text),
    NoDup (Map_keys (qTable (this w))) ->
    binary32_table (qTable (this w)) ->
    Map_has (qTable (this w)) (hashState taskContext) = true ->
    let restored :=
      snd (import E (Object_entries (fst (export w)))
             {| this := constructor cfg; draws := d; ticks := n |}) in
    fst (route E taskContext false restored) = fst (route E taskContext false w).
Proof.
  intros E w cfg d n taskContext Hnd Hf32 Hseen restored.
  apply route_greedy_same_qValues.
  unfold Map_has in Hseen.
  destruct (Map_get (qTable (this w)) (hashState taskContext))
    as [entry|] eqn:Hget; [|discriminate].
  rewrite (getQValues_present _ w Hget).
  pose proof (Map_get_In _ _ Hget) as Hin.
  subst restored. rewrite import_run, export_rows. fields.
  set (o := fold_left _ (map exported (qTable (this w)))
              (Object_new ExportedEntry)).
  assert (Hkeys0 : NoDup (map fst (map exported (qTable (this w)))))
    by (now rewrite map_map).
  destruct (Object_of_rows _ Hkeys0) as [Hown _]. fold o in Hown.
  assert (Hkeys : NoDup (map fst (own o))).
  { rewrite Hown. clear - Hkeys0.
    induction (map exported (qTable (this w))) as [|[k x] rows IH];
      simpl; [constructor|].
    inversion Hkeys0 as [|? ? Hk Hnd']; subst.
    unfold ordinary_key at 1. cbn [fst].
    destruct (String.eqb k "__proto__"); simpl; [now apply IH|].
    constructor; [|now apply IH].
    intros Hin. apply Hk. apply in_map_iff in Hin.
    destruct Hin as (kx & <- & Hin). apply filter_In in Hin.
    now apply in_map. }
  destruct (@imported_get E (Object_entries o) (hashState taskContext)
              (exported_entry entry) n [])
    as (i & _ & Hget').
  - eapply Permutation_NoDup; [|exact Hkeys].
    apply Permutation_map. apply Permutation_sym.
    apply Object_entries_Permutation.
  - eapply Permutation_in;
      [apply Permutation_sym; apply Object_entries_Permutation|].
    rewrite Hown. apply filter_In. split.
    + now apply (in_map exported) in Hin.
    + unfold ordinary_key. cbn [fst]. now rewrite hashState_ordinary.
  - erewrite getQValues_present by (fields; exact Hget').
    fields. unfold Float32Array_from, exported_entry. simpl.
    now apply (Hf32 _ _ Hin).
Qed.

Lemma export_import_preserves_greedy_routes_witness :
  let restored :=
    snd (import engine (Object_entries (fst (export two_states)))
           (fresh DEFAULT_CONFIG)) in
  NoDup (Map_keys (qTable (this two_states)))
  /\ binary32_table (qTable (this two_states))
  /\ Map_has (qTable (this two_states)) (hashState (utf16 "b")) = true
  /\ fst (route engine (utf16 "b") false restored)
     = fst (route engine (utf16 "b") false two_states)
  /\ d_route (fst (route engine (utf16 "b") false restored)) = "coder".
Proof.
  intros restored.
  assert (Hnd : NoDup (Map_keys (qTable (this two_states)))).
  { vm_compute. repeat constructor; simpl; intuition discriminate. }
  assert (Hf32 : binary32_table (qTable (this two_states))).
  { intros k entry Hin. vm_compute in Hin.
    destruct Hin as [H|[H|[]]]; injection H as <- <-; vm_compute; reflexivity. }
  assert (Hseen : Map_has (qTable (this two_states)) (hashState (utf16 "b"))
                  = true) by (vm_compute; reflexivity).
  split; [exact Hnd|]. split; [exact Hf32|]. split; [exact Hseen|].
  split.
  - exact (export_import_preserves_greedy_routes engine two_states
             DEFAULT_CONFIG 0 0 (utf16 "b") Hnd Hf32 Hseen).
  - vm_compute. reflexivity.
Defined.

(** Epsilon is not part of the exported data: the trained default router
    has epsilon 0.9999, the router restored from its export has 1.  On a
    draw of 0.99995 the first one exploits and the second one explores, so
    [route("fix login bug", true)] differs on a state that the original
    router has seen. *)
Lemma export_import_changes_exploring_routes :
  let E := engine_drawing 0.99995%float in
  let restored :=
    snd (import E (Object_entries (fst (export trained)))
           (fresh DEFAULT_CONFIG)) in
  let taskContext := utf16 "fix login bug" in
  Map_has (qTable (this trained)) (hashState taskContext) = true
  /\ epsilon (this trained) = 0.9999%float
  /\ epsilon (this restored) = 1%float
  /\ d_explored (fst (route E taskContext true trained)) = false
  /\ d_route (fst (route E taskContext true trained)) = "coder"
  /\ d_explored (fst (route E taskContext true restored)) = true
  /\ d_route (fst (route E taskContext true restored)) = "documenter".
Proof. vm_compute. repeat split. Qed.

(** ** The decision cache *)

(** [route] neither reads nor writes [routeCache]: with any cache in
    place of the router's, it returns the same decision and leaves that
    cache as it is. *)
Lemma route_never_uses_the_cache E taskContext explore w c :
  fst (route E taskContext explore (with_routeCache w c))
  = fst (route E taskContext explore w)
  /\ routeCache (this (snd (route E taskContext explore (with_routeCache w c))))
     = c.
Proof.
  split; [|now rewrite route_frame].
  assert (Hq : fst (getQValues (hashState taskContext) (with_routeCache w c))
               = fst (getQValues (hashState taskContext) w)).
  { unfold getQValues, bind, self, ret, with_routeCache. cbn [this qTable config].
    now destruct (Map_get (qTable (this w)) (hashState taskContext)). }
  rewrite !route_run, Hq.
  destruct explore; [|reflexivity].
  unfold with_routeCache. cbn [this draws epsilon config].
  now destruct (PrimFloat.ltb _ _).
Qed.


End RouterFacts.

(* ================================================================== *)
(** * The router: pruning *)
(* ================================================================== *)

Module PruningFacts.
Import JS JSFacts QLearningRouter Runs RouterFacts.
Local Open Scope string_scope.
Local Open Scope list_scope.

(** ** Deleting keys *)

Lemma Map_set_twice {V} (m : Map V) k v v' :
  Map_set (Map_set m k v) k v' = Map_set m k v'.
Proof.
  induction m as [|[k0 v0] m IH]; simpl.
  - now rewrite String.eqb_refl.
  - destruct (String.eqb k0 k) eqn:H; simpl.
    + now rewrite String.eqb_refl.
    + now rewrite H, IH.
Qed.

(** In a map of distinct keys, deleting a key removes the entries of
    that key and moves no other. *)
Lemma Map_delete_filter {V} (m : Map V) k :
  NoDup (Map_keys m) ->
  Map_delete m k = filter (fun ke => negb (String.eqb (fst ke) k)) m.
Proof.
  induction m as [|[k0 v0] m IH]; intros Hnd; simpl; [reflexivity|].
  inversion Hnd as [|? ? Hk Hnd']; subst.
  destruct (String.eqb k0 k) eqn:H; simpl.
  - apply String.eqb_eq in H. subst k0.
    symmetry. apply forallb_filter_id. apply forallb_forall.
    intros [k1 v1] Hin. simpl. apply negb_true_iff. apply String.eqb_neq.
    intros ->. apply Hk. unfold Map_keys. now apply (in_map fst) in Hin.
  - now rewrite IH.
Qed.

Lemma filter_filter {X} (f g : X -> bool) (l : list X) :
  filter g (filter f l) = filter (fun x => f x && g x) l.
Proof.
  induction l as [|x l IH]; simpl; [reflexivity|].
  destruct (f x); simpl; [destruct (g x)|]; now rewrite IH.
Qed.

Lemma delete_all_filter {V} (es : list (string * V)) :
  forall m : Map V,
    NoDup (Map_keys m) ->
    fold_left (fun t e => Map_delete t (fst e)) es m
    = filter (fun ke => negb (existsb (String.eqb (fst ke)) (Map_keys es))) m.
Proof.
  induction es as [|[k v] es IH]; intros m Hnd; simpl.
  - symmetry. apply forallb_filter_id. now apply forallb_forall.
  - rewrite IH by now apply Map_delete_NoDup.
    rewrite Map_delete_filter by assumption. rewrite filter_filter.
    apply filter_ext. intros [k1 v1]. simpl.
    now rewrite negb_orb.
Qed.

(** ** The order of eviction *)

(** No later than: the order that [older_first] sorts by. *)
Definition no_later (a b : string * QEntry) : Prop :=
  (lastUpdate (snd a) <= lastUpdate (snd b))%Z.

Lemma insert_sorted x l :
  StronglySorted no_later l ->
  StronglySorted no_later (insert older_first x l).
Proof.
  induction l as [|y l IH]; intros Hs; simpl.
  - repeat constructor.
  - inversion Hs as [|? ? Hs' Hall]; subst.
    destruct (older_first x y) eqn:Hxy.
    + constructor; [now apply IH|].
      apply Forall_forall. intros z Hz. apply insert_In in Hz.
      destruct Hz as [->|Hz].
      * unfold older_first in Hxy. apply Z.ltb_lt in Hxy.
        unfold no_later. lia.
      * rewrite Forall_forall in Hall. now apply Hall.
    + constructor; [assumption|].
      unfold older_first in Hxy. apply Z.ltb_ge in Hxy.
      constructor; [unfold no_later; lia|].
      rewrite Forall_forall in Hall |- *. intros z Hz.
      specialize (Hall z Hz). unfold no_later in *. lia.
Qed.

Lemma sort_sorted l : StronglySorted no_later (sort older_first l).
Proof.
  induction l as [|x l IH]; simpl; [constructor|now apply insert_sorted].
Qed.

Lemma sorted_app {X} (R : X -> X -> Prop) (l1 l2 : list X) :
  StronglySorted R (l1 ++ l2) ->
  forall a b, In a l1 -> In b l2 -> R a b.
Proof.
  induction l1 as [|x l1 IH]; intros Hs a b Ha Hb; [contradiction|].
  simpl in Hs. inversion Hs as [|? ? Hs' Hall]; subst.
  destruct Ha as [->|Ha].
  - rewrite Forall_forall in Hall. apply Hall. apply in_or_app. now right.
  - now apply IH.
Qed.

(** What pruning leaves: the table without the entries that come first
    by [lastUpdate], in the order of the table; none of those is later
    than an entry that stays. *)
Lemma pruned_oldest cfg (t : Map QEntry) :
  NoDup (Map_keys t) ->
  let evicted :=
    firstn (List.length t - (4 * maxStates cfg) / 5) (sort older_first t) in
  pruned cfg t
  = filter (fun ke => negb (existsb (String.eqb (fst ke)) (Map_keys evicted))) t
  /\ (forall old kept,
        In old evicted -> In kept (pruned cfg t) -> no_later old kept).
Proof.
  intros Hnd evicted.
  assert (Heq : pruned cfg t
                = filter (fun ke => negb (existsb (String.eqb (fst ke))
                                            (Map_keys evicted))) t).
  { unfold pruned. rewrite sort_length. now apply delete_all_filter. }
  split; [exact Heq|].
  intros old kept Hold Hkept.
  rewrite Heq in Hkept. apply filter_In in Hkept. destruct Hkept as [Hin Hout].
  apply negb_true_iff in Hout.
  set (n := List.length t - (4 * maxStates cfg) / 5) in *.
  pose proof (sort_sorted t) as Hs.
  rewrite <- (firstn_skipn n (sort older_first t)) in Hs.
  apply (@sorted_app _ _ _ _ Hs); [exact Hold|].
  assert (Hin' : In kept (sort older_first t)) by now apply sort_In.
  rewrite <- (firstn_skipn n (sort older_first t)) in Hin'.
  apply in_app_or in Hin'. destruct Hin' as [Hfirst|Hrest]; [|exact Hrest].
  exfalso.
  assert (Hex : existsb (String.eqb (fst kept)) (Map_keys evicted) = true).
  { apply existsb_exists. exists (fst kept). split.
    - unfold Map_keys. now apply in_map.
    - apply String.eqb_refl. }
  congruence.
Qed.

(** C5 (amended).  [update] with a route name sets the row of the
    task's state in the table it finds (a new row goes last), stamped
    with the time of the call.  When that table has at most [maxStates]
    rows it is the table afterwards.  When it has more, the rows that
    come first in ascending order of [lastUpdate] (the sort is stable:
    ties in the order of the table) are deleted until [4 * maxStates /
    5] remain: the other rows stay as they are, in their order, and no
    deleted row is later than a row that stays.  Either way the table
    ends with at most [maxStates] rows.  When the state is new,
    [maxStates] is at least 2 and no row of the table carries a
    [lastUpdate] later than the time of the call, the row created and
    updated by the call is in the table afterwards. *)
Theorem update_prunes_oldest_rows_to_capacity :
  forall (E : Engine) (w : World) (taskContext : text) (action : string)
         (reward : number) (nextContext : option text),
    In action ROUTE_NAMES ->
    NoDup (Map_keys (qTable (this w))) ->
    let key := hashState taskContext in
    let cfg := config (this w) in
    let keep := (4 * maxStates cfg) / 5 in
    let table' :=
      qTable (this (snd (update E taskContext action reward nextContext w))) in
    exists entry' : QEntry,
      let table := Map_set (qTable (this w)) key entry' in
      let evicted := firstn (Map_size table - keep) (sort older_first table) in
      lastUpdate entry'
      = Date_now E (if Map_has (qTable (this w)) key
                    then ticks w else S (ticks w))
      /\ (Map_size table <= maxStates cfg -> table' = table)
      /\ (maxStates cfg < Map_size table ->
          table'
          = filter (fun ke => negb (existsb (String.eqb (fst ke))
                                      (Map_keys evicted))) table
          /\ Map_size evicted = Map_size table - keep
          /\ Map_size table' = keep
          /\ (forall old kept,
                In old evicted -> In kept table' ->
                (lastUpdate (snd old) <= lastUpdate (snd kept))%Z))
      /\ Map_size table' <= maxStates cfg
      /\ (Map_get (qTable (this w)) key = None ->
          2 <= maxStates cfg ->
          (forall k e, In (k, e) (qTable (this w)) ->
                       (lastUpdate e <= Date_now E (S (ticks w)))%Z) ->
          Map_get table' key = Some entry').
Proof.
  intros E w taskContext action reward nextContext Hact Hnd key cfg keep table'.
  destruct (indexOf ROUTE_NAMES action) as [actionIdx|] eqn:Hidx;
    [|apply indexOf_None in Hidx; contradiction].
  destruct (@update_effects E taskContext action actionIdx reward nextContext
              w Hidx) as (entry' & Hstamp & Htable & _).
  fold key cfg table' in Htable.
  rewrite getOrCreateEntry_run in Htable, Hstamp. fold key in Htable, Hstamp.
  exists entry'.
  set (table1 :=
         qTable (this (snd (match Map_get (qTable (this w)) key with
                            | Some entry => (entry, w)
                            | None => _
                            end)))) in *.
  assert (Hset : Map_set table1 key entry'
                 = Map_set (qTable (this w)) key entry').
  { subst table1. destruct (Map_get (qTable (this w)) key); fields;
      [reflexivity|]. apply Map_set_twice. }
  cbv zeta in Htable |- *. rewrite Hset in Htable. clear Hset.
  set (table := Map_set (qTable (this w)) key entry') in *.
  assert (Hnd2 : NoDup (Map_keys table)) by now apply Map_set_NoDup.
  assert (Hkeep : keep <= maxStates cfg).
  { apply Nat.Div0.div_le_upper_bound; lia. }
  unfold Map_size in *.
  split; [|split; [|split; [|split]]].
  - unfold Map_has.
    destruct (Map_get (qTable (this w)) key); fields; exact Hstamp.
  - intros Hle. rewrite Htable.
    apply Nat.ltb_ge in Hle. now rewrite Hle.
  - intros Hfull. pose proof Hfull as Hfull'.
    apply Nat.ltb_lt in Hfull'. rewrite Hfull' in Htable.
    destruct (@pruned_oldest cfg table Hnd2) as [Heq Hold].
    split; [now rewrite Htable|]. split; [|split].
    + rewrite length_firstn, sort_length. lia.
    + rewrite Htable. apply pruned_length; [assumption|lia].
    + intros old kept Ho Hk. rewrite Htable in Hk.
      exact (Hold old kept Ho Hk).
  - rewrite Htable.
    destruct (maxStates cfg <? _)%nat eqn:Hfull.
    + apply Nat.ltb_lt in Hfull. rewrite pruned_length; auto. lia.
    + now apply Nat.ltb_ge in Hfull.
  - intros Hnew Hmax Hold. rewrite Htable.
    destruct (maxStates cfg <? _)%nat eqn:Hfull.
    + subst table. rewrite Hnew in Hstamp. fields.
      rewrite (Map_set_absent _ _ _ Hnew).
      rewrite pruned_keeps_newest; auto.
      * intros k0 e0 Hin. rewrite Hstamp. now apply (Hold k0).
      * apply Nat.div_le_lower_bound; lia.
    + subst table. now rewrite Map_get_set_same.
Qed.

Lemma update_prunes_oldest_rows_to_capacity_witness :
  let w' := snd (update engine (utf16 "c") "coder" 1%float None two_states) in
  In "coder" ROUTE_NAMES
  /\ NoDup (Map_keys (qTable (this two_states)))
  /\ Map_keys (qTable (this two_states))
     = [hashState (utf16 "a"); hashState (utf16 "b")]
  /\ maxStates (config (this two_states)) = 2
  /\ Map_keys (qTable (this w')) = [hashState (utf16 "c")]
  /\ exists entry',
       Map_get (qTable (this w')) (hashState (utf16 "c")) = Some entry'
       /\ lastUpdate entry' = Date_now engine (S (ticks two_states)).
Proof.
  intros w'.
  assert (Hact : In "coder" ROUTE_NAMES) by (now left).
  assert (Hnd : NoDup (Map_keys (qTable (this two_states)))).
  { vm_compute. repeat constructor; simpl; intuition discriminate. }
  destruct (update_prunes_oldest_rows_to_capacity engine two_states
              (utf16 "c") 1%float None Hact Hnd)
    as (entry' & Hstamp & _ & _ & _ & Hkept).
  split; [exact Hact|]. split; [exact Hnd|].
  split; [vm_compute; reflexivity|]. split; [reflexivity|].
  split; [vm_compute; reflexivity|].
  exists entry'. split.
  - apply Hkept.
    + vm_compute. reflexivity.
    + vm_compute. lia.
    + intros k e Hin. vm_compute in Hin.
      destruct Hin as [H|[H|[]]]; injection H as <- <-; vm_compute; discriminate.
  - rewrite Hstamp. reflexivity.
Defined.

End PruningFacts.

(* ================================================================== *)
(** * Flash attention: validation and element reads *)
(* ================================================================== *)

Module AttentionFacts.
Import JS FlashAttention.
Local Open Scope list_scope.

(** ** Computations whose reads all satisfy a condition *)

(** [c] returns, and every element read it makes satisfies [P]. *)
Definition reads_within {A} (P : Read -> Prop) (c : T A) : Prop :=
  (exists a, fst c = Returns a) /\ Forall P (snd c).

Lemma reads_within_ret {A} (P : Read -> Prop) (a : A) : reads_within P (ret a).
Proof. split; [now exists a|constructor]. Qed.

Lemma reads_within_bind {A B} (P : Read -> Prop) (c : T A) (k : A -> T B) :
  reads_within P c ->
  (forall a, reads_within P (k a)) ->
  reads_within P (bind c k).
Proof.
  intros [[a Ha] Hc] Hk. destruct c as [o t]. simpl in Ha, Hc. subst o.
  unfold bind. destruct (Hk a) as [[b Hb] Hka].
  destruct (k a) as [o' t']. simpl in *. subst o'.
  split; [now exists b|]. apply Forall_app. now split.
Qed.

Lemma reads_within_read (A : Arith) (P : Read -> Prop) (v : vector A)
    (i : nat) :
  P {| of_length := List.length v; at_index := i |} ->
  reads_within P (read A v i).
Proof. intros H. split; [eexists; reflexivity|]. now repeat constructor. Qed.

Lemma reads_within_foldM {S A} (P : Read -> Prop) (body : S -> A -> T S)
    (xs : list A) :
  (forall s x, In x xs -> reads_within P (body s x)) ->
  forall s, reads_within P (foldM body xs s).
Proof.
  induction xs as [|x xs IH]; intros Hbody s; simpl.
  - apply reads_within_ret.
  - apply reads_within_bind.
    + apply Hbody. now left.
    + intros s'. apply IH. intros s0 x0 Hin. apply Hbody. now right.
Qed.

(** ** [validateInputs] *)

(** On non-empty inputs the verdict is a function of the numbers of keys
    and values and of the lengths of the three first vectors. *)
Lemma validateInputs_first_vectors {X} (q k v : list X)
    (Q K V : list (list X)) :
  validateInputs (q :: Q) (k :: K) (v :: V) =
    if negb (List.length K =? List.length V)%nat
    then Throws (KeyValueCount (S (List.length K)) (S (List.length V)))
    else if negb (List.length q =? List.length k)%nat
    then Throws (QueryKeyDimensions (List.length q) (List.length k))
    else if negb (List.length k =? List.length v)%nat
    then Throws (KeyValueDimensions (List.length k) (List.length v))
    else Returns tt.
Proof. reflexivity. Qed.

(** ** [dotProduct] *)

(** A read of [dotProduct a b]: on [a] or on [b], below the length of
    both. *)
Definition dot_read {X} (a b : list X) (r : Read) : Prop :=
  at_index r < Nat.min (List.length a) (List.length b)
  /\ (of_length r = List.length a \/ of_length r = List.length b).

Lemma dot_read_in_range {X} (a b : list X) r :
  dot_read a b r -> in_range r = true.
Proof.
  intros [Hlt [Hl|Hl]]; unfold in_range; apply Nat.ltb_lt; rewrite Hl; lia.
Qed.

Lemma dotProduct_reads (A : Arith) (a b : vector A) :
  reads_within (dot_read a b) (dotProduct A a b).
Proof.
  unfold dotProduct.
  set (len := Nat.min (List.length a) (List.length b)).
  assert (Hdiv : 4 * (len / 4) <= len) by (apply Nat.Div0.mul_div_le).
  assert (Ha : forall i, i < len ->
                 dot_read a b {| of_length := List.length a; at_index := i |})
    by (intros i Hi; split; [exact Hi|now left]).
  assert (Hb : forall i, i < len ->
                 dot_read a b {| of_length := List.length b; at_index := i |})
    by (intros i Hi; split; [exact Hi|now right]).
  apply reads_within_bind.
  - apply reads_within_foldM. intros sum i Hin.
    apply in_map_iff in Hin. destruct Hin as (j & <- & Hj).
    apply in_seq in Hj.
    assert (Hlt : 4 * j + 3 < len) by lia.
    repeat (apply reads_within_bind;
            [apply reads_within_read; first [apply Ha|apply Hb]; lia|intros ?]).
    apply reads_within_ret.
  - intros sum. apply reads_within_foldM. intros sum' i Hin.
    apply in_seq in Hin.
    repeat (apply reads_within_bind;
            [apply reads_within_read; first [apply Ha|apply Hb]; lia|intros ?]).
    apply reads_within_ret.
Qed.

(** C10 (amended).  [validateInputs] looks at the number of vectors and
    at the first vector of [queries], [keys] and [values] only, so that an
    input whose first vectors have one length is accepted whatever the
    lengths of the later vectors; and [dotProduct(a, b)] returns after
    reading only components below [min(len(a), len(b))] of [a] and [b]:
    no dot product reads out of range. *)
Theorem validation_checks_first_vectors_and_dot_products_stay_in_range :
  forall (A : Arith) (q k v a b : vector A) (Q K V : list (vector A)),
    validateInputs (q :: Q) (k :: K) (v :: V)
    = validateInputs (q :: map (fun _ => []) Q) (k :: map (fun _ => []) K)
        (v :: map (fun _ => []) V)
    /\ (List.length K = List.length V ->
        List.length q = List.length k ->
        List.length k = List.length v ->
        validateInputs (q :: Q) (k :: K) (v :: V) = Returns tt)
    /\ (exists sum, fst (dotProduct A a b) = Returns sum)
    /\ Forall (fun r => at_index r < Nat.min (List.length a) (List.length b)
                        /\ in_range r = true)
         (snd (dotProduct A a b)).
Proof.
  intros A q k v a b Q K V. unfold vector in *. split; [|split].
  - rewrite !validateInputs_first_vectors, !length_map. reflexivity.
  - intros HKV Hqk Hkv. rewrite validateInputs_first_vectors.
    rewrite HKV, Hqk, Hkv, !Nat.eqb_refl. reflexivity.
  - destruct (dotProduct_reads a b) as [Hret Hreads]. split; [exact Hret|].
    eapply Forall_impl; [|exact Hreads].
    intros r Hr. split; [apply Hr|]. eapply dot_read_in_range; exact Hr.
Qed.

Lemma validation_checks_first_vectors_and_dot_products_stay_in_range_witness :
  let A := binary64 Runs.engine in
  let q : vector A := [1; 1]%float in
  let short : vector A := [1]%float in
  let a : vector A := [1; 2; 3; 4; 5]%float in
  let b : vector A := [1; 1; 1; 1; 1; 7]%float in
  validateInputs [q] [q; q] [q; short] = Returns tt
  /\ (exists sum, fst (dotProduct A a b) = Returns sum)
  /\ forallb in_range (snd (dotProduct A a b)) = true.
Proof.
  intros A q short a b.
  destruct (@validation_checks_first_vectors_and_dot_products_stay_in_range
              A q q q a b [] [q] [short]) as (_ & Haccept & Hret & Hreads).
  split; [now apply Haccept|]. split; [exact Hret|].
  apply forallb_forall. intros r Hr.
  rewrite Forall_forall in Hreads. now apply Hreads.
Defined.

(** One query, two keys and two values of dimension 2, except that the
    second value has a single component: the input passes validation, and
    the accumulation of the output reads [values[1][1]], past the end of
    that vector; the second component of the output is NaN. *)
Lemma attention_reads_past_a_short_value :
  let Q := [[1; 1]]%float in
  let K := [[1; 1]; [1; 1]]%float in
  let V := [[1; 1]; [1]]%float in
  validateInputs Q K V = Returns tt
  /\ (forall (E : Engine) (config : FlashAttentionConfig (binary64 E)),
        In {| of_length := 1; at_index := 1 |}
          (snd (attention (binary64 E) config Q K V))
        /\ existsb (fun r => negb (in_range r))
             (snd (attention (binary64 E) config Q K V))
           = true)
  /\ fst (attention (binary64 Runs.engine) (default_config _) Q K V)
     = Returns [[1; nan]]%float.
Proof.
  split; [reflexivity|]. split.
  - intros E config. split.
    + vm_compute. do 11 right. now left.
    + vm_compute. reflexivity.
  - vm_compute. reflexivity.
Qed.

(** ** The two computations in binary32 *)

(** An engine whose [Math.exp] maps 0 to 1 is that engine with the value
    at 0 written out. *)
Lemma exp_of_zero_written_out E :
  Math_exp E zero = one ->
  E = {| Math_exp := fun x => if PrimFloat.Leibniz.eqb x zero then one
                              else Math_exp E x;
         Math_random := Math_random E;
         Date_now := Date_now E |}.
Proof.
  intros H. destruct E as [e r c]. simpl in *. f_equal.
  apply functional_extensionality. intros x.
  destruct (PrimFloat.Leibniz.eqb x zero) eqn:Hx; [|reflexivity].
  apply FloatAxioms.Leibniz.eqb_spec in Hx. now subst x.
Qed.

(** One query orthogonal to three keys, so that every score is 0 and
    every weight a third, and the values 3001, 3002, 3004.  On every
    engine with [Math.exp(0) = 1] the direct computation returns
    3002.33349609375 and the tiled one 3002.333251953125: the weights
    are rounded to binary32 before the sum in the first, the sum is
    divided by 3 in the second, and the results are one binary32 step
    (0.000244140625) apart. *)
Lemma tiled_and_direct_outputs_can_differ :
  forall E : Engine,
    Math_exp E zero = one ->
    let Q := [[0]]%float in
    let K := [[1]; [1]; [1]]%float in
    let V := [[3001]; [3002]; [3004]]%float in
    validateInputs Q K V = Returns tt
    /\ fst (naiveAttention (binary64 E) (default_config _) Q K V)
       = Returns [[3002.33349609375]]%float
    /\ fst (blockAttention (binary64 E) (default_config _) Q K V 64)
       = Returns [[3002.333251953125]]%float
    /\ PrimFloat.ltb 0.0001 (3002.33349609375 - 3002.333251953125) = true.
Proof.
  intros E H. rewrite (exp_of_zero_written_out E H).
  vm_compute. repeat split.
Qed.

(** The same input on the sample engine: the two outputs are more than
    1e-4 apart. *)
Lemma tiled_and_direct_differ_in_binary32 :
  let A := binary64 Runs.engine in
  let Q : list (vector A) := [[0]]%float in
  let K : list (vector A) := [[1]; [1]; [1]]%float in
  let V : list (vector A) := [[3001]; [3002]; [3004]]%float in
  validateInputs Q K V = Returns tt
  /\ fst (naiveAttention A (default_config A) Q K V)
     = Returns [[3002.33349609375]]%float
  /\ fst (blockAttention A (default_config A) Q K V 64)
     = Returns [[3002.333251953125]]%float
  /\ PrimFloat.ltb 0.0001 (3002.33349609375 - 3002.333251953125) = true.
Proof. vm_compute. repeat split. Qed.

Lemma tiled_and_direct_outputs_can_differ_witness :
  Math_exp Runs.engine zero = one
  /\ fst (naiveAttention (binary64 Runs.engine) (default_config _)
            [[0]] [[1]; [1]; [1]] [[3001]; [3002]; [3004]])%float
     = Returns [[3002.33349609375]]%float
  /\ fst (blockAttention (binary64 Runs.engine) (default_config _)
            [[0]] [[1]; [1]; [1]] [[3001]; [3002]; [3004]] 64)%float
     = Returns [[3002.333251953125]]%float.
Proof.
  assert (H : Math_exp Runs.engine zero = one) by (vm_compute; reflexivity).
  split; [exact H|].
  destruct (tiled_and_direct_outputs_can_differ Runs.engine H)
    as (_ & Hnaive & Hblock & _).
  split; [exact Hnaive|exact Hblock].
Defined.

End AttentionFacts.

(* ================================================================== *)
(** * Loops, and arrays written by index *)
(* ================================================================== *)

Module LoopFacts.
Import FlashAttention.
Local Open Scope list_scope.

(** The outcome of a sequence whose first part returns. *)
Lemma fst_bind {X Y} (c : T X) (k : X -> T Y) (a : X) :
  fst c = Returns a -> fst (bind c k) = fst (k a).
Proof.
  destruct c as [o t]. simpl. intros ->. destruct (k a). reflexivity.
Qed.

(** A loop over [xs] with an invariant on the position reached: when
    every pass returns and establishes the invariant one position
    further, the loop returns with the invariant at the end of [xs]. *)
Lemma foldM_inv {St X} (I : nat -> St -> Prop) (body : St -> X -> T St)
    (xs : list X) :
  forall (n : nat) (s : St),
    I n s ->
    (forall i x s, nth_error xs i = Some x -> I (n + i) s ->
       exists s', fst (body s x) = Returns s' /\ I (n + S i) s') ->
    exists s', fst (foldM body xs s) = Returns s'
               /\ I (n + List.length xs) s'.
Proof.
  induction xs as [|x xs IH]; intros n s Hs Hbody; simpl.
  - exists s. rewrite Nat.add_0_r. now split.
  - destruct (Hbody 0 x s eq_refl) as (s1 & H1 & HI1).
    { now rewrite Nat.add_0_r. }
    destruct (IH (n + 1) s1 HI1) as (s2 & H2 & HI2).
    { intros i y s0 Hy Hs0. replace (n + 1 + i) with (n + S i) in Hs0 by lia.
      destruct (Hbody (S i) y s0 Hy Hs0) as (s' & H' & HI').
      exists s'. split; [exact H'|].
      now replace (n + 1 + S i) with (n + S (S i)) by lia. }
    exists s2. rewrite (fst_bind _ _ H1). split; [exact H2|].
    now replace (n + S (List.length xs)) with (n + 1 + List.length xs) by lia.
Qed.

Lemma nth_error_seq_Some (a len i x : nat) :
  nth_error (seq a len) i = Some x -> x = a + i /\ i < len.
Proof.
  revert a i. induction len as [|len IH]; intros a i H.
  - destruct i; discriminate.
  - destruct i as [|i]; simpl in H.
    + injection H as <-. lia.
    + apply IH in H. lia.
Qed.

(** A counting loop with an invariant on its variable. *)
Lemma foldM_seq_inv {St} (I : nat -> St -> Prop) (body : St -> nat -> T St)
    (a len : nat) (s : St) :
  I a s ->
  (forall i s, a <= i < a + len -> I i s ->
     exists s', fst (body s i) = Returns s' /\ I (S i) s') ->
  exists s', fst (foldM body (seq a len) s) = Returns s' /\ I (a + len) s'.
Proof.
  intros Hs Hbody.
  destruct (@foldM_inv St nat I body (seq a len) a s Hs) as (s' & H & HI).
  - intros i x s0 Hx Hs0. apply nth_error_seq_Some in Hx. destruct Hx as [-> Hi].
    destruct (Hbody (a + i) s0) as (s' & H' & HI'); [lia|exact Hs0|].
    exists s'. split; [exact H'|]. now rewrite Nat.add_succ_r.
  - exists s'. rewrite length_seq in HI. now split.
Qed.

(** A loop with an invariant that does not depend on its variable. *)
Lemma foldM_In_inv {St X} (I : St -> Prop) (body : St -> X -> T St)
    (xs : list X) (s : St) :
  I s ->
  (forall x s, In x xs -> I s ->
     exists s', fst (body s x) = Returns s' /\ I s') ->
  exists s', fst (foldM body xs s) = Returns s' /\ I s'.
Proof.
  intros Hs Hbody.
  apply (@foldM_inv St X (fun _ => I) body xs 0 s Hs).
  intros i x s0 Hx Hs0. apply Hbody; [|exact Hs0].
  eapply nth_error_In. exact Hx.
Qed.

(** A loop that fills an array element by element. *)
Lemma foldM_snoc {X Y Z} (body : list Z -> Y -> T (list Z)) (h : X -> Y)
    (g : X -> Z) (xs : list X) :
  (forall acc x, In x xs -> fst (body acc (h x)) = Returns (acc ++ [g x])) ->
  forall acc, fst (foldM body (map h xs) acc) = Returns (acc ++ map g xs).
Proof.
  induction xs as [|x xs IH]; intros Hf acc; simpl.
  - now rewrite app_nil_r.
  - rewrite (fst_bind _ _ (Hf acc x (or_introl eq_refl))).
    rewrite IH by (intros acc' y Hy; apply Hf; now right).
    now rewrite <- app_assoc.
Qed.

(** A list of length [n] whose element [i] is [f i], for every [i < n],
    is [f] tabulated below [n]. *)
Lemma tabulate_eq {X} (l : list X) (n : nat) (f : nat -> X) :
  List.length l = n ->
  (forall i, i < n -> nth_error l i = Some (f i)) ->
  l = map f (seq 0 n).
Proof.
  intros Hlen Hnth. apply nth_error_ext. intros i.
  destruct (Nat.lt_ge_cases i n) as [Hi|Hi].
  - rewrite Hnth by exact Hi.
    rewrite nth_error_map, nth_error_seq.
    apply Nat.ltb_lt in Hi. now rewrite Hi.
  - transitivity (@None X).
    + apply nth_error_None. lia.
    + symmetry. apply nth_error_None. now rewrite length_map, length_seq.
Qed.

Lemma nth_error_tabulate {X} (f : nat -> X) (n i : nat) :
  i < n -> nth_error (map f (seq 0 n)) i = Some (f i).
Proof.
  intros Hi. rewrite nth_error_map, nth_error_seq.
  apply Nat.ltb_lt in Hi. now rewrite Hi.
Qed.

Lemma list_tabulate {X} (l : list X) (d : X) :
  l = map (fun i => nth i l d) (seq 0 (List.length l)).
Proof.
  apply tabulate_eq; [reflexivity|].
  intros i Hi. now apply nth_error_nth'.
Qed.

Lemma repeat_tabulate {X} (x : X) (n : nat) :
  repeat x n = map (fun _ => x) (seq 0 n).
Proof.
  apply tabulate_eq; [apply repeat_length|].
  intros i Hi. now apply nth_error_repeat.
Qed.

Lemma nth_error_map_seq {X} (f : nat -> X) (a len i : nat) :
  i < len -> nth_error (map f (seq a len)) i = Some (f (a + i)).
Proof.
  intros Hi. rewrite nth_error_map, nth_error_seq.
  apply Nat.ltb_lt in Hi. now rewrite Hi.
Qed.

Lemma nth_error_map_seq_Some {X} (f : nat -> X) (a len i : nat) (x : X) :
  nth_error (map f (seq a len)) i = Some x -> i < len /\ x = f (a + i).
Proof.
  rewrite nth_error_map, nth_error_seq.
  destruct (i <? len) eqn:H; simpl; [|discriminate].
  intros [= <-]. apply Nat.ltb_lt in H. now split.
Qed.

(** [l.slice(a, a + len)], element by element. *)
Lemma firstn_skipn_seq {X} (l : list X) (d : X) (a len : nat) :
  a + len <= List.length l ->
  firstn len (skipn a l) = map (fun i => nth i l d) (seq a len).
Proof.
  intros H. apply nth_error_ext. intros i.
  destruct (Nat.lt_ge_cases i len) as [Hi|Hi].
  - rewrite nth_error_map_seq by exact Hi.
    rewrite nth_error_firstn. apply Nat.ltb_lt in Hi as Hi'. rewrite Hi'.
    rewrite nth_error_skipn. apply nth_error_nth'. lia.
  - transitivity (@None X).
    + apply nth_error_None. rewrite length_firstn. lia.
    + symmetry. apply nth_error_None. now rewrite length_map, length_seq.
Qed.

Lemma nth_error_combine {X Y} (l : list X) (l' : list Y) (i : nat) (x : X)
    (y : Y) :
  nth_error l i = Some x -> nth_error l' i = Some y ->
  nth_error (combine l l') i = Some (x, y).
Proof.
  revert l' i. induction l as [|a l IH]; intros l' i Hx Hy.
  - destruct i; discriminate.
  - destruct l' as [|b l']; [destruct i; discriminate|].
    destruct i as [|i]; simpl in *.
    + congruence.
    + now apply IH.
Qed.

(** [rows[i] = row] and [a[i] = v] change index [i] only. *)
Lemma set_nth_length {X} (l : list X) (i : nat) (x : X) :
  List.length (set_nth l i x) = List.length l.
Proof.
  revert i. induction l as [|y l IH]; intros [|i]; simpl; auto.
Qed.

Lemma nth_error_set_nth {X} (l : list X) (i j : nat) (x : X) :
  i < List.length l ->
  nth_error (set_nth l i x) j = if j =? i then Some x else nth_error l j.
Proof.
  revert i j. induction l as [|y l IH]; intros i j Hi; simpl in Hi; [lia|].
  destruct i as [|i], j as [|j]; simpl; try reflexivity.
  apply IH. lia.
Qed.

Lemma store_length (A : Arith) (l : vector A) (i : nat) (x : num A) :
  List.length (store A l i x) = List.length l.
Proof.
  revert i. induction l as [|y l IH]; intros [|i]; simpl; auto.
Qed.

Lemma nth_error_store (A : Arith) (l : vector A) (i j : nat) (x : num A) :
  i < List.length l ->
  nth_error (store A l i x) j
  = if j =? i then Some (n_fround A x) else nth_error l j.
Proof.
  revert i j. induction l as [|y l IH]; intros i j Hi; simpl in Hi; [lia|].
  destruct i as [|i], j as [|j]; simpl; try reflexivity.
  apply IH. lia.
Qed.

(** The starts of the blocks of size [b] cover the indices below [n]. *)
Lemma strides_cover (n b : nat) :
  0 < b ->
  exists cnt,
    strides n b = Some (map (fun k => k * b) (seq 0 cnt))
    /\ (forall i, i < cnt -> i * b < n)
    /\ n <= cnt * b.
Proof.
  intros Hb. destruct n as [|n].
  - exists 0. split; [reflexivity|]. split; [lia|lia].
  - exists ((S n + b - 1) / b). split.
    + unfold strides. destruct b; [lia|reflexivity].
    + pose proof (Nat.div_mod_eq (S n + b - 1) b) as Hdm.
      pose proof (Nat.mod_upper_bound (S n + b - 1) b) as Hmod.
      split; [intros i Hi|]; nia.
Qed.

End LoopFacts.

(* ================================================================== *)
(** * The router: state keys *)
(* ================================================================== *)

Module HashFacts.
Import JS QLearningRouter.
Local Open Scope Z_scope.

(** [ToInt32] keeps the residue modulo 2^32. *)
Lemma ToInt32_add_l (a b : Z) : ToInt32 (ToInt32 a + b) = ToInt32 (a + b).
Proof.
  unfold ToInt32. f_equal.
  replace ((a + 2 ^ 31) mod 2 ^ 32 - 2 ^ 31 + b + 2 ^ 31)
    with ((a + 2 ^ 31) mod 2 ^ 32 + b) by ring.
  replace (a + b + 2 ^ 31) with ((a + 2 ^ 31) + b) by ring.
  now rewrite Zplus_mod_idemp_l.
Qed.

Lemma ToInt32_mul_r (k a : Z) : ToInt32 (k * ToInt32 a) = ToInt32 (k * a).
Proof.
  unfold ToInt32. f_equal.
  replace (k * ((a + 2 ^ 31) mod 2 ^ 32 - 2 ^ 31) + 2 ^ 31)
    with (k * ((a + 2 ^ 31) mod 2 ^ 32) + (2 ^ 31 - k * 2 ^ 31)) by ring.
  replace (k * a + 2 ^ 31) with (k * (a + 2 ^ 31) + (2 ^ 31 - k * 2 ^ 31))
    by ring.
  rewrite <- Zplus_mod_idemp_l, Zmult_mod_idemp_r, Zplus_mod_idemp_l.
  reflexivity.
Qed.

Lemma ToInt32_range (a : Z) : - 2 ^ 31 <= ToInt32 a < 2 ^ 31.
Proof.
  unfold ToInt32. pose proof (Z.mod_pos_bound (a + 2 ^ 31) (2 ^ 32)). lia.
Qed.

Lemma hashStep_31 (h c : Z) : hashStep h c = ToInt32 (31 * h + c).
Proof.
  unfold hashStep.
  replace (ToInt32 (h * 32) - h + c) with (ToInt32 (h * 32) + (c - h)) by ring.
  rewrite ToInt32_add_l. f_equal. ring.
Qed.

Lemma ToInt32_step (x c : Z) :
  ToInt32 (31 * ToInt32 x + c) = ToInt32 (31 * x + c).
Proof. now rewrite <- ToInt32_add_l, ToInt32_mul_r, ToInt32_add_l. Qed.

Lemma hash_fold (context : text) :
  forall h,
    fold_left hashStep context (ToInt32 h)
    = ToInt32 (fold_left (fun h c => 31 * h + c) context h).
Proof.
  induction context as [|c context IH]; intros h; simpl; [reflexivity|].
  rewrite hashStep_31, ToInt32_step. apply IH.
Qed.

(** [hashState(context)] is ["state_"] followed by the decimal of the
    base-31 polynomial of the UTF-16 code units of [context], taken as a
    signed 32-bit integer: wrapping after every character, as the loop
    does, or once at the end gives the same key. *)
Theorem state_key_is_the_base_31_hash :
  forall context : text,
    let h := fold_left (fun h c => 31 * h + c) context 0 in
    hashState context = ("state_" ++ string_of_Z (ToInt32 h))%string
    /\ - 2 ^ 31 <= ToInt32 h < 2 ^ 31.
Proof.
  intros context h. split; [|apply ToInt32_range].
  subst h. unfold hashState. now rewrite <- (hash_fold context 0).
Qed.

(** [route] and [update] read the task description through its state
    key only. *)
Lemma same_key_same_calls (E : Engine) (a b : text) :
  hashState a = hashState b ->
  (forall explore w, route E a explore w = route E b explore w)
  /\ (forall action reward nextContext w,
        update E a action reward nextContext w
        = update E b action reward nextContext w).
Proof.
  intros H. split.
  - intros explore w. unfold route. rewrite H. reflexivity.
  - intros action reward nextContext w. unfold update. rewrite H. reflexivity.
Qed.

Lemma Aa_BB (h : Z) :
  fold_left hashStep (utf16 "Aa") h = fold_left hashStep (utf16 "BB") h.
Proof.
  change (utf16 "Aa") with [65; 97]. change (utf16 "BB") with [66; 66].
  cbn [fold_left]. rewrite !hashStep_31, !ToInt32_step.
  f_equal. ring.
Qed.

(** Two task descriptions that differ only by ["Aa"] in place of
    ["BB"] have the same state key: the router cannot tell them apart,
    [route] answers the same for both and [update] on one is [update]
    on the other. *)
Theorem colliding_contexts_share_a_state :
  forall (E : Engine) (p s : text),
    let a := p ++ utf16 "Aa" ++ s in
    let b := p ++ utf16 "BB" ++ s in
    hashState a = hashState b
    /\ (forall explore w, route E a explore w = route E b explore w)
    /\ (forall action reward nextContext w,
          update E a action reward nextContext w
          = update E b action reward nextContext w).
Proof.
  intros E p s a b.
  assert (H : hashState a = hashState b).
  { unfold hashState, a, b. do 2 f_equal.
    rewrite !fold_left_app. f_equal. apply Aa_BB. }
  split; [exact H|]. exact (@same_key_same_calls E a b H).
Qed.

End HashFacts.

(* ================================================================== *)
(** * The greater of two numbers *)
(* ================================================================== *)

Module MaxFacts.
Import JS JSFacts.

Lemma not_nan_SF (x : number) :
  is_nan x = false -> Prim2SF x <> S754_nan.
Proof.
  unfold is_nan. intros H Hx. apply negb_false_iff in H.
  rewrite eqb_spec, Hx in H. discriminate.
Qed.

Lemma SFleb_refl x : x <> S754_nan -> SFleb x x = true.
Proof.
  intros Hx. unfold SFleb, SFcompare.
  destruct x as [[]|[]| |[] m e]; try reflexivity; try congruence;
    rewrite Z.compare_refl;
    change (Pos.compare_cont Eq m m) with (Pos.compare m m);
    now rewrite Pos.compare_refl.
Qed.

Lemma SFltb_leb x y : SFltb x y = true -> SFleb x y = true.
Proof.
  unfold SFltb, SFleb. destruct (SFcompare x y) as [[]|]; congruence.
Qed.

(** Neither below the other: each is at most the other. *)
Lemma SF_tie x y :
  x <> S754_nan -> y <> S754_nan ->
  SFltb x y = false -> SFltb y x = false ->
  SFleb x y = true /\ SFleb y x = true.
Proof.
  intros Hx Hy.
  unfold SFltb, SFleb, SFcompare.
  destruct x as [[]|[]| |[] ? ?], y as [[]|[]| |[] ? ?];
    simpl; try congruence; try (now split); intros;
    order_cases; simpl in *; try discriminate; try (now split); try lia.
Qed.

Lemma max2_spec (a b : number) :
  is_nan a = false -> is_nan b = false ->
  (max2 a b = a \/ max2 a b = b)
  /\ PrimFloat.leb a (max2 a b) = true
  /\ PrimFloat.leb b (max2 a b) = true.
Proof.
  intros Ha Hb. unfold max2. rewrite Ha, Hb.
  pose proof (not_nan_SF a Ha) as Ha'. pose proof (not_nan_SF b Hb) as Hb'.
  destruct (PrimFloat.ltb a b) eqn:Hab.
  - split; [now right|]. rewrite !leb_spec. rewrite ltb_spec in Hab.
    split; [now apply SFltb_leb|now apply SFleb_refl].
  - destruct (PrimFloat.ltb b a) eqn:Hba.
    + split; [now left|]. rewrite !leb_spec. rewrite ltb_spec in Hba.
      split; [now apply SFleb_refl|now apply SFltb_leb].
    + rewrite ltb_spec in Hab, Hba.
      destruct (SF_tie Ha' Hb' Hab Hba) as [H1 H2].
      destruct (get_sign a); (split; [auto|]); rewrite !leb_spec;
        split; auto using SFleb_refl.
Qed.

Lemma max2_neg_infinity (a : number) :
  is_nan a = false -> max2 neg_infinity a = a.
Proof.
  intros Ha. unfold max2. rewrite Ha.
  change (is_nan neg_infinity) with false. cbv iota.
  destruct (PrimFloat.ltb neg_infinity a) eqn:H1; [reflexivity|].
  destruct (PrimFloat.ltb a neg_infinity) eqn:H2.
  - exfalso. rewrite ltb_spec in H2.
    change (Prim2SF neg_infinity) with (S754_infinity true) in H2.
    unfold SFltb, SFcompare in H2.
    destruct (Prim2SF a) as [[]|[]| |[] ? ?]; discriminate.
  - change (get_sign neg_infinity) with true. reflexivity.
Qed.

(** [Math.max(a, b)] of two numbers that are not NaN is one of them, and
    neither is above it. *)
Lemma Math_max_pair (a b : number) :
  is_nan a = false -> is_nan b = false ->
  (Math_max [a; b] = a \/ Math_max [a; b] = b)
  /\ PrimFloat.leb a (Math_max [a; b]) = true
  /\ PrimFloat.leb b (Math_max [a; b]) = true.
Proof.
  intros Ha Hb. unfold Math_max. cbn [fold_left].
  rewrite (max2_neg_infinity a Ha). now apply max2_spec.
Qed.

End MaxFacts.

(* ================================================================== *)
(** * The router: the greedy choice *)
(* ================================================================== *)

Module GreedyFacts.
Import JS JSFacts QLearningRouter Runs RouterFacts MaxFacts.
Local Open Scope string_scope.
Local Open Scope list_scope.

(** Numbers that are not NaN are totally ordered. *)
Lemma SF_total x y :
  x <> S754_nan -> y <> S754_nan ->
  (SFltb y x = false -> SFleb x y = true)
  /\ (SFleb y x = false -> SFltb x y = true).
Proof.
  intros Hx Hy.
  unfold SFltb, SFleb, SFcompare.
  destruct x as [[]|[]| |[] ? ?], y as [[]|[]| |[] ? ?];
    simpl; try congruence; try (now split); split; intros;
    order_cases; simpl in *; try discriminate; try reflexivity; try lia.
Qed.

Lemma not_gt_le (a b : number) :
  is_nan a = false -> is_nan b = false ->
  gt a b = false -> PrimFloat.leb a b = true.
Proof.
  intros Ha Hb. unfold gt. rewrite ltb_spec, leb_spec.
  apply SF_total; now apply not_nan_SF.
Qed.

Lemma not_ge_lt (a b : number) :
  is_nan a = false -> is_nan b = false ->
  ge a b = false -> PrimFloat.ltb a b = true.
Proof.
  intros Ha Hb. unfold ge. rewrite ltb_spec, leb_spec.
  apply SF_total; now apply not_nan_SF.
Qed.

(** Nothing is greater than NaN, and what is greater than a number is
    not NaN. *)
Lemma gt_nan (v m : number) : is_nan m = true -> gt v m = false.
Proof.
  unfold is_nan, gt. intros H. apply negb_true_iff in H.
  rewrite eqb_spec in H. rewrite ltb_spec.
  unfold SFeqb, SFltb, SFcompare in *.
  destruct (Prim2SF m) as [[]|[]| |[] ? ?]; simpl in *;
    try discriminate;
    try (destruct (Prim2SF v) as [[]|[]| |[] ? ?]; reflexivity).
  all: rewrite Z.compare_refl in H;
    change (Pos.compare_cont Eq m0 m0) with (Pos.compare m0 m0) in H;
    rewrite Pos.compare_refl in H; discriminate.
Qed.

Lemma gt_not_nan (v m : number) : gt v m = true -> is_nan v = false.
Proof.
  unfold is_nan, gt. rewrite ltb_spec, eqb_spec. intros H.
  apply negb_false_iff.
  unfold SFeqb, SFltb, SFcompare in *.
  destruct (Prim2SF v) as [[]|[]| |[] ? ?]; simpl in *; try reflexivity.
  1: destruct (Prim2SF m) as [[]|[]| |[] ? ?]; discriminate.
  all: rewrite Z.compare_refl;
    change (Pos.compare_cont Eq m0 m0) with (Pos.compare m0 m0);
    now rewrite Pos.compare_refl.
Qed.

(** The loop of [argmax] never leaves a NaN that it starts from, and
    never moves to one. *)
Lemma argmax_from_nan rest :
  forall i maxIdx maxVal,
    is_nan maxVal = true -> argmax_from rest i maxIdx maxVal = maxIdx.
Proof.
  induction rest as [|v rest IH]; intros i maxIdx maxVal H; simpl;
    [reflexivity|].
  rewrite (gt_nan v maxVal H). now apply IH.
Qed.

Lemma argmax_from_not_nan rest :
  forall pre maxIdx maxVal,
    nth_error pre maxIdx = Some maxVal ->
    is_nan maxVal = false ->
    exists best,
      nth_error (pre ++ rest)
        (argmax_from rest (List.length pre) maxIdx maxVal) = Some best
      /\ is_nan best = false.
Proof.
  induction rest as [|x rest IH]; intros pre maxIdx maxVal Hmax Hnan; simpl.
  - rewrite app_nil_r. eauto.
  - assert (Hlen : maxIdx < List.length pre)
      by (apply nth_error_Some; congruence).
    replace (pre ++ x :: rest) with ((pre ++ [x]) ++ rest)
      by (now rewrite <- app_assoc).
    replace (S (List.length pre)) with (List.length (pre ++ [x]))
      by (rewrite length_app; simpl; lia).
    destruct (gt x maxVal) eqn:Hx; apply IH.
    + rewrite nth_error_app2, Nat.sub_diag by lia. reflexivity.
    + exact (@gt_not_nan _ _ Hx).
    + rewrite nth_error_app1 by assumption. assumption.
    + assumption.
Qed.

(** The row that a greedy call reads for a state: the Q-values of its
    entry, or zeros when the table has none. *)
Lemma row_read k w :
  fst (getQValues k w)
  = match Map_get (qTable (this w)) k with
    | Some entry => qValues entry
    | None => repeat zero (numActions (config (this w)))
    end.
Proof.
  unfold getQValues, bind, self, ret.
  now destruct (Map_get (qTable (this w)) k).
Qed.

Lemma route_name_nth i :
  or_else (nth_error ROUTE_NAMES i) "coder" = nth i ROUTE_NAMES "coder".
Proof.
  do 8 (destruct i as [|i]; [reflexivity|]). simpl.
  now destruct i.
Qed.

(** C2 (amended).  A greedy call, [route(taskContext, false)], leaves
    the world as it was (no state change, no random draw) and returns a
    decision that depends on the router object and on nothing else the
    engine supplies but [Math.exp].  The row of Q-values it reports is
    the one the table holds for the state key, or [numActions] zeros
    when the table has none.  The index [i] it selects is within the
    row; no value of the row is greater than the selected one and no
    earlier value is as great.  When the first value of the row is not
    NaN, the selected value is not NaN, every value that is not NaN is
    at most the selected one, and every earlier such value is below it:
    [i] is the lowest index of the maximum.  When the first value is
    NaN, [i] is 0.  The route is the [i]-th route name when there is
    one, and ["coder"] when [i] is 8 or more. *)
Theorem greedy_route_selects_first_maximum_of_the_row :
  forall (E : Engine) (w : World) (taskContext : text),
    let row :=
      match Map_get (qTable (this w)) (hashState taskContext) with
      | Some entry => qValues entry
      | None => repeat zero (numActions (config (this w)))
      end in
    exists (d : RouteDecision) (i : nat),
      route E taskContext false w = (d, w)
      /\ (forall E' w',
            Math_exp E' = Math_exp E -> this w' = this w ->
            route E' taskContext false w' = (d, w'))
      /\ d_explored d = false
      /\ d_qValues d = row
      /\ d_route d = nth i ROUTE_NAMES "coder"
      /\ (i < List.length row \/ row = [] /\ i = 0)
      /\ (forall j v, nth_error row j = Some v ->
                      gt v (nth i row nan) = false)
      /\ (forall j v, j < i -> nth_error row j = Some v ->
                      ge v (nth i row nan) = false)
      /\ (is_nan (nth 0 row nan) = true -> i = 0)
      /\ (is_nan (nth 0 row nan) = false ->
          is_nan (nth i row nan) = false
          /\ (forall j v, nth_error row j = Some v -> is_nan v = false ->
                          PrimFloat.leb v (nth i row nan) = true)
          /\ (forall j v, j < i -> nth_error row j = Some v ->
                          is_nan v = false ->
                          PrimFloat.ltb v (nth i row nan) = true)).
Proof.
  intros E w taskContext row.
  destruct (route_greedy_run E taskContext w)
    as (confidence & alternatives & Hrun & Hdet).
  assert (Hread : fst (getQValues (hashState taskContext) w) = row)
    by apply row_read.
  cbv zeta in Hrun. rewrite Hread in Hrun. clearbody row. clear Hread.
  rewrite route_name_nth in Hrun.
  destruct (argmax_spec row) as (Hgt & Hge & Hidx).
  eexists. exists (argmax row). split; [exact Hrun|]. cbn [d_explored d_qValues d_route].
  split; [|split; [reflexivity|split; [reflexivity|split; [reflexivity|]]]].
  { intros E' w' HE Hw. specialize (Hdet E' w' HE Hw).
    rewrite Hrun in Hdet. cbn [fst] in Hdet.
    destruct (route_greedy_run E' taskContext w') as (c' & a' & Hrun' & _).
    rewrite Hrun' in Hdet |- *. cbn [fst] in Hdet. now rewrite Hdet. }
  split.
  { destruct Hidx as [Hidx|Hnil]; [now left|right]. now rewrite Hnil. }
  split; [exact Hgt|]. split; [exact Hge|].
  destruct row as [|v0 rest] eqn:Hrow.
  { split; [reflexivity|]. cbn. discriminate. }
  change (nth 0 (v0 :: rest) nan) with v0. split.
  - intros Hnan. now apply argmax_from_nan.
  - intros Hnan.
    destruct (@argmax_from_not_nan rest [v0] 0 v0 eq_refl Hnan)
      as (best & Hbest & Hbnan).
    change ([v0] ++ rest) with (v0 :: rest) in Hbest.
    change (List.length [v0]) with 1 in Hbest.
    change (argmax (v0 :: rest)) with (argmax_from rest 1 0 v0) in *.
    assert (Hn : nth (argmax_from rest 1 0 v0) (v0 :: rest) nan = best)
      by (apply nth_error_nth; exact Hbest).
    rewrite Hn in *.
    split; [exact Hbnan|]. split.
    + intros j v Hj Hv. apply not_gt_le; eauto.
    + intros j v Hlt Hj Hv. apply not_ge_lt; eauto.
Qed.

(** A row of nine values, as [import] accepts it whatever [numActions]
    is, with its greatest value at index 8: the greedy call selects
    index 8, for which there is no route name, and answers ["coder"],
    the action of index 0, whose Q-value is not the maximum. *)
Lemma greedy_route_past_the_route_names_is_coder :
  let taskContext := utf16 "fix login bug" in
  let w :=
    snd (import engine
           [(hashState taskContext,
             {| x_qValues := [0; 0; 0; 0; 0; 0; 0; 0; 1]%float;
                x_visits := 1%float |})]
           (fresh DEFAULT_CONFIG)) in
  let d := fst (route engine taskContext false w) in
  snd (route engine taskContext false w) = w
  /\ d_qValues d = [0; 0; 0; 0; 0; 0; 0; 0; 1]%float
  /\ argmax (d_qValues d) = 8
  /\ d_route d = "coder"
  /\ indexOf ROUTE_NAMES (d_route d) = Some 0
  /\ gt (nth 8 (d_qValues d) nan) (nth 0 (d_qValues d) nan) = true.
Proof. vm_compute. repeat split. Qed.

End GreedyFacts.

(* ================================================================== *)
(** * The router in use *)
(* ================================================================== *)

Module RouterUse.
Import JS QLearningRouter Runs JSFacts RouterFacts Sessions MaxFacts
  GreedyFacts.
Local Open Scope string_scope.
Local Open Scope list_scope.

(** ** A state never seen *)

Lemma argmax_from_zeros (n i maxIdx : nat) :
  argmax_from (repeat zero n) i maxIdx zero = maxIdx.
Proof.
  revert i. induction n as [|n IH]; intros i; simpl; [reflexivity|].
  replace (gt zero zero) with false by (symmetry; apply gt_irrefl).
  apply IH.
Qed.

Lemma argmax_zeros (n : nat) : argmax (repeat zero n) = 0.
Proof. destruct n; simpl; [reflexivity|apply argmax_from_zeros]. Qed.

Lemma alternatives_of_zeros (E : Engine) (n : nat) (i : option nat) (b : bool) :
  map alt_route (d_alternatives (decision_of E i (repeat zero n) b))
  = ["tester"; "reviewer"; "architect"].
Proof.
  unfold decision_of. cbn [d_alternatives].
  do 8 (destruct n as [|n]; [vm_compute; reflexivity|]).
  cbn [repeat ROUTE_NAMES List.length seq combine map nth_error fst snd].
  vm_compute. reflexivity.
Qed.

(** Without exploration, [route] on a task whose state is not in the
    table answers ["coder"], the first route name, with Q-values all 0
    and the next three route names as alternatives, whatever
    [numActions] is. *)
Theorem route_on_unseen_state_selects_the_first_route :
  forall (E : Engine) (taskContext : text) (w : World),
    Map_get (qTable (this w)) (hashState taskContext) = None ->
    let d := fst (route E taskContext false w) in
    d_route d = "coder"
    /\ d_explored d = false
    /\ d_qValues d = repeat zero (numActions (config (this w)))
    /\ map alt_route (d_alternatives d) = ["tester"; "reviewer"; "architect"].
Proof.
  intros E taskContext w Hnone d. subst d.
  rewrite route_run, (getQValues_absent _ _ Hnone). cbn [fst].
  split; [|split; [reflexivity|split; [reflexivity|]]].
  - unfold decision_of. cbn [d_route]. now rewrite argmax_zeros.
  - apply alternatives_of_zeros.
Qed.

Lemma route_on_unseen_state_selects_the_first_route_witness :
  d_route (fst (route engine (utf16 "write docs") false (fresh DEFAULT_CONFIG)))
  = "coder"
  /\ map alt_route
       (d_alternatives
          (fst (route engine (utf16 "write docs") false (fresh DEFAULT_CONFIG))))
     = ["tester"; "reviewer"; "architect"].
Proof.
  destruct (@route_on_unseen_state_selects_the_first_route
              engine (utf16 "write docs") (fresh DEFAULT_CONFIG) eq_refl)
    as (Hroute & _ & _ & Halt).
  split; [exact Hroute|exact Halt].
Defined.

(** ** What an update leaves alone *)

Lemma indexOf_Some names action :
  In action names -> exists actionIdx, indexOf names action = Some actionIdx.
Proof.
  intros Hin. destruct (indexOf names action) as [i|] eqn:H; [now exists i|].
  apply indexOf_None in H. contradiction.
Qed.

Lemma Map_get_delete_same {V} (m : Map V) k :
  NoDup (Map_keys m) -> Map_get (Map_delete m k) k = None.
Proof.
  induction m as [|[k0 v0] m IH]; simpl; [reflexivity|].
  intros Hnd. inversion Hnd as [|? ? Hk0 Hnd']; subst.
  destruct (String.eqb_spec k0 k) as [->|Hne].
  - now apply Map_get_None.
  - simpl. apply String.eqb_neq in Hne. rewrite Hne. now apply IH.
Qed.

(** Deleting keys from a map of distinct keys removes entries and
    changes none. *)
Lemma delete_all_get {V} (es : list (string * V)) k :
  forall m : Map V,
    NoDup (Map_keys m) ->
    Map_get (fold_left (fun t e => Map_delete t (fst e)) es m) k = Map_get m k
    \/ Map_get (fold_left (fun t e => Map_delete t (fst e)) es m) k = None.
Proof.
  induction es as [|[k0 v0] es IH]; intros m Hnd; simpl; [now left|].
  destruct (IH (Map_delete m k0) (@Map_delete_NoDup _ m k0 Hnd)) as [H|H];
    [|now right].
  rewrite H. destruct (string_dec k0 k) as [->|Hne].
  - right. now apply Map_get_delete_same.
  - left. now apply Map_get_delete_other.
Qed.

Lemma Map_set_size_le {V} (m : Map V) k v :
  Map_size (Map_set m k v) <= S (Map_size m).
Proof.
  unfold Map_size. induction m as [|[k0 v0] m IH]; simpl; [lia|].
  destruct (String.eqb k0 k); simpl; lia.
Qed.

Lemma Map_set_size_same {V} (m : Map V) k v v' :
  Map_size (Map_set (Map_set m k v) k v') = Map_size (Map_set m k v).
Proof.
  unfold Map_size. induction m as [|[k0 v0] m IH]; simpl.
  - now rewrite String.eqb_refl.
  - destruct (String.eqb k0 k) eqn:H; simpl.
    + now rewrite String.eqb_refl.
    + rewrite H. simpl. now rewrite IH.
Qed.

(** [update] with a route name rewrites the row of the task's state
    only: any other row is left as it was or, when the table had
    reached [maxStates] and was pruned, removed; below [maxStates] no
    other row changes.  (The keys of the table are distinct.) *)
Theorem update_changes_one_row :
  forall (E : Engine) (taskContext : text) (action : string) (reward : number)
         (nextContext : option text) (w : World) (k : string),
    In action ROUTE_NAMES ->
    NoDup (Map_keys (qTable (this w))) ->
    k <> hashState taskContext ->
    let table := qTable (this w) in
    let table' :=
      qTable (this (snd (update E taskContext action reward nextContext w))) in
    (Map_get table' k = Map_get table k \/ Map_get table' k = None)
    /\ (Map_size table < maxStates (config (this w)) ->
        Map_get table' k = Map_get table k).
Proof.
  intros E taskContext action reward nextContext w k Hin Hnd Hk table table'.
  destruct (indexOf_Some _ _ Hin) as [actionIdx Hidx].
  destruct (@update_effects E taskContext action actionIdx reward nextContext w
              Hidx) as (entry' & _ & Htable & _).
  subst table'. rewrite Htable. clear Htable. cbv zeta.
  set (key := hashState taskContext) in *.
  assert (Hw1 : exists t1,
             qTable (this (snd (getOrCreateEntry E key w))) = t1
             /\ NoDup (Map_keys t1)
             /\ Map_get t1 k = Map_get table k
             /\ Map_size (Map_set t1 key entry') <= S (Map_size table)).
  { rewrite getOrCreateEntry_run. fold table.
    destruct (Map_get table key) eqn:Hget; eexists; (split; [reflexivity|]);
      cbn [snd this set_qTable qTable].
    - split; [exact Hnd|]. split; [reflexivity|]. apply Map_set_size_le.
    - split; [now apply Map_set_NoDup|].
      split; [now apply Map_get_set_other; congruence|].
      rewrite Map_set_size_same. apply Map_set_size_le. }
  destruct Hw1 as (t1 & -> & Hnd1 & Hget1 & Hsize).
  assert (Hset : Map_get (Map_set t1 key entry') k = Map_get table k).
  { rewrite Map_get_set_other by congruence. exact Hget1. }
  split.
  - destruct (_ <? _)%nat; [|now left].
    unfold pruned.
    destruct (@delete_all_get QEntry
                (firstn (List.length (sort older_first (Map_set t1 key entry'))
                         - 4 * maxStates (config (this w)) / 5)
                   (sort older_first (Map_set t1 key entry')))
                k (Map_set t1 key entry') (@Map_set_NoDup _ t1 key entry' Hnd1)) as [H|H].
    + left. now rewrite H.
    + now right.
  - intros Hroom.
    replace (_ <? _)%nat with false; [exact Hset|].
    symmetry. apply Nat.ltb_ge. fold table in Hroom. lia.
Qed.

Lemma update_changes_one_row_witness :
  Map_get (qTable (this (snd (update engine (utf16 "b") "tester" 1%float None
                                trained))))
    (hashState (utf16 "fix login bug"))
  = Map_get (qTable (this trained)) (hashState (utf16 "fix login bug")).
Proof.
  assert (Hin : In "tester" ROUTE_NAMES) by (simpl; tauto).
  assert (Hnd : NoDup (Map_keys (qTable (this trained))))
    by (vm_compute; repeat constructor; simpl; tauto).
  assert (Hk : hashState (utf16 "fix login bug") <> hashState (utf16 "b"))
    by (vm_compute; discriminate).
  assert (Hroom : Map_size (qTable (this trained))
                  < maxStates (config (this trained)))
    by (vm_compute; lia).
  exact (proj2 (@update_changes_one_row engine (utf16 "b") "tester" 1%float
                  None trained _ Hin Hnd Hk) Hroom).
Defined.

(** ** The fields no method writes *)

Lemma same_unused_refl r : same_unused r r.
Proof. now repeat split. Qed.

Lemma same_unused_trans r1 r2 r3 :
  same_unused r1 r2 -> same_unused r2 r3 -> same_unused r1 r3.
Proof.
  unfold same_unused. intros H1 H2.
  decompose [and] H1. decompose [and] H2. repeat split; congruence.
Qed.

Lemma update_unused E taskContext action reward nextContext w :
  let r' := this (snd (update E taskContext action reward nextContext w)) in
  same_unused (this w) r'
  /\ (stepCount (this w) = updateCount (this w) ->
      stepCount r' = updateCount r').
Proof.
  intros r'. subst r'.
  destruct (update E taskContext action reward nextContext w) as [td W] eqn:Hupd.
  unfold update in Hupd.
  destruct (indexOf ROUTE_NAMES action) as [actionIdx|].
  2:{ injection Hupd as <- <-. split; [apply same_unused_refl|auto]. }
  set (key := hashState taskContext) in *.
  unfold bind at 1 in Hupd. rewrite getOrCreateEntry_run in *.
  destruct w as [r d n]. destruct r. fields.
  destruct (Map_get qTable0 key) as [entry|] eqn:Hget; fields;
    unfold bind at 1 in Hupd; rewrite target_frame in Hupd; fields;
    unfold bind, self, now, assign, ret in Hupd; fields;
    match type of Hupd with
    | context [(?a <? ?b)%nat] => destruct (a <? b)%nat eqn:Hfull
    end;
    rewrite ?pruneQTable_run in Hupd; fields;
    injection Hupd as <- <-; fields;
    (split; [now repeat split|intros ->; reflexivity]).
Qed.

Lemma call_unused E c w :
  let r' := this (snd (call E c w)) in
  same_unused (this w) r'
  /\ (stepCount (this w) = updateCount (this w) ->
      stepCount r' = updateCount r').
Proof.
  destruct c as [taskContext explore|taskContext action reward nextContext
                | | | |data]; cbv zeta; cbn [call].
  - unfold bind, ret.
    pose proof (route_frame E taskContext explore w) as H.
    destruct (route E taskContext explore w) as [d w']. cbn [snd] in *.
    rewrite H. split; [apply same_unused_refl|auto].
  - unfold bind, ret.
    pose proof (update_unused E taskContext action reward nextContext w) as H.
    destruct (update E taskContext action reward nextContext w) as [td w'].
    exact H.
  - split; [apply same_unused_refl|auto].
  - destruct w as [[] ? ?]. split; [now repeat split|reflexivity].
  - split; [apply same_unused_refl|auto].
  - rewrite import_run. destruct w as [[] ? ?].
    split; [now repeat split|auto].
Qed.

Lemma session_unused E calls :
  forall w,
    let r' := this (snd (session E calls w)) in
    same_unused (this w) r'
    /\ (stepCount (this w) = updateCount (this w) ->
        stepCount r' = updateCount r').
Proof.
  unfold session.
  induction calls as [|c calls IH]; intros w; cbn [forEach].
  - split; [apply same_unused_refl|auto].
  - unfold bind.
    pose proof (call_unused E c w) as [H1 H2].
    destruct (call E c w) as [[] w1]. cbn [snd] in *.
    destruct (IH w1) as [H3 H4]. split.
    + eapply same_unused_trans; eassumption.
    + auto.
Qed.

(** Whatever calls of [route], [update], [getStats], [reset], [export]
    and [import] are made on a new router, the replay buffer, the
    decision cache and the feature-hash cache stay empty, their counters
    zero and the configuration the one given; [stepCount] and
    [updateCount] are the same number. *)
Theorem replay_buffer_and_caches_are_never_written :
  forall (E : Engine) (cfg : QLearningRouterConfig) (calls : list Call),
    let r := this (snd (session E calls (fresh cfg))) in
    config r = cfg
    /\ replayBuffer r = [] /\ replayBufferIdx r = 0
    /\ totalExperiences r = zero
    /\ routeCache r = [] /\ cacheOrder r = []
    /\ cacheHits r = zero /\ cacheMisses r = zero
    /\ featureHashCache r = []
    /\ stepCount r = updateCount r.
Proof.
  intros E cfg calls r.
  destruct (session_unused E calls (fresh cfg)) as [H Hcount].
  fold r in H, Hcount. unfold same_unused in H. cbn in H.
  decompose [and] H. repeat split; try assumption.
  now apply Hcount.
Qed.

(** [reset()] after any calls of [route], [update], [getStats],
    [reset], [export] and [import] on a new router gives the new router
    back: every field is what the constructor set. *)
Theorem reset_restores_the_new_router :
  forall (E : Engine) (cfg : QLearningRouterConfig) (calls : list Call),
    this (snd (reset (snd (session E calls (fresh cfg))))) = constructor cfg.
Proof.
  intros E cfg calls.
  destruct (session_unused E calls (fresh cfg)) as [H _].
  destruct (snd (session E calls (fresh cfg))) as [r d n].
  unfold same_unused in H. cbn in H. decompose [and] H. clear H.
  destruct r. cbn in *. subst. reflexivity.
Qed.

(** ** The decision cache *)


(** ** The exploration rate *)

(** After an update with a route name, the exploration rate is the
    greater of [explorationFinal] and the linear value
    [explorationInitial - stepCount / explorationDecay]: it is not below
    [explorationFinal] (when neither is NaN). *)
Theorem epsilon_stays_above_its_floor :
  forall (E : Engine) (taskContext : text) (action : string) (reward : number)
         (nextContext : option text) (w : World),
    In action ROUTE_NAMES ->
    let cfg := config (this w) in
    let line :=
      (explorationInitial cfg
       - (stepCount (this w) + 1) / explorationDecay cfg)%float in
    let eps :=
      epsilon (this (snd (update E taskContext action reward nextContext w))) in
    is_nan (explorationFinal cfg) = false ->
    is_nan line = false ->
    (eps = explorationFinal cfg \/ eps = line)
    /\ ge eps (explorationFinal cfg) = true
    /\ ge eps line = true.
Proof.
  intros E taskContext action reward nextContext w Hin cfg line eps Hfin Hline.
  destruct (indexOf_Some _ _ Hin) as [actionIdx Hidx].
  destruct (@update_effects E taskContext action actionIdx reward nextContext w
              Hidx) as (_ & _ & _ & _ & _ & Heps & _).
  subst eps. rewrite Heps. unfold ge. fold cfg. fold line.
  now apply Math_max_pair.
Qed.

Lemma epsilon_stays_above_its_floor_witness :
  ge (epsilon (this trained)) 0.01%float = true.
Proof.
  assert (Hin : In "coder" ROUTE_NAMES) by (simpl; tauto).
  exact (proj1 (proj2 (@epsilon_stays_above_its_floor engine
                         (utf16 "fix login bug") "coder" 1%float None
                         (fresh DEFAULT_CONFIG) Hin eq_refl eq_refl))).
Defined.

(** ** Import, then export *)

Lemma imported_rows E data :
  forall n t,
    NoDup (map fst data) ->
    (forall k, In k (map fst data) -> ~ In k (Map_keys t)) ->
    map exported (imported E n data t) = map exported t ++ map rounded data.
Proof.
  induction data as [|[k x] data IH]; intros n t Hnd Hnew; simpl.
  - now rewrite app_nil_r.
  - inversion Hnd as [|? ? Hk Hnd']; subst.
    assert (Hout : ~ In k (Map_keys t)) by (apply Hnew; now left).
    assert (Hget : Map_get t k = None) by (now apply Map_get_None).
    rewrite IH.
    + rewrite (@Map_set_absent _ t k _ Hget), map_app, <- app_assoc.
      reflexivity.
    + exact Hnd'.
    + intros k' Hk'. rewrite (@Map_keys_set_absent _ t k _ Hout).
      intros Hin. apply in_app_or in Hin. destruct Hin as [Hin|[<-|[]]].
      * apply (Hnew k'); [now right|exact Hin].
      * contradiction.
Qed.

(** [export()] after [import(data)], the keys of [data] being distinct:
    the object returned has the rows of [data] under keys other than
    [__proto__] as its own properties, in their order, every Q-value
    rounded to binary32; a row under [__proto__] is not among them, it
    has become the prototype of the object.  When no key of [data] is
    [__proto__] or an array index, [Object.entries] of the object is
    [data] with its Q-values rounded. *)
Theorem import_then_export_returns_the_rounded_data :
  forall (E : Engine) (data : list (string * ExportedEntry)) (w : World),
    NoDup (map fst data) ->
    let result := fst (export (snd (import E data w))) in
    own result = map rounded (filter ordinary_key data)
    /\ proto result = option_map rounded_entry (Map_get data "__proto__")
    /\ (forallb (fun kx => ordinary_key kx && negb (is_index_key (fst kx)))
          data = true ->
        Object_entries result = map rounded data).
Proof.
  intros E data w Hnd result. subst result.
  rewrite export_rows, import_run. cbn [fst snd this].
  destruct w as [[] ? ?]. cbn [set_qTable qTable this ticks].
  rewrite (@imported_rows E data _ [] Hnd) by (intros k _ []).
  cbn [map app].
  assert (Hnd' : NoDup (map fst (map rounded data)))
    by (now rewrite map_map).
  destruct (Object_of_rows _ Hnd') as [Hown Hproto].
  set (o := fold_left _ (map rounded data) (Object_new ExportedEntry)) in *.
  assert (Hfilter : forall f : string -> bool,
             filter (fun kx => f (fst kx)) (map rounded data)
             = map rounded (filter (fun kx => f (fst kx)) data)).
  { intros f. clear. induction data as [|[k x] data IH]; simpl; [reflexivity|].
    destruct (f k); simpl; now rewrite IH. }
  assert (Hown' : own o = map rounded (filter ordinary_key data)).
  { rewrite Hown.
    exact (Hfilter (fun k => negb (String.eqb k "__proto__"))). }
  split; [exact Hown'|]. split.
  - rewrite Hproto. clear.
    induction data as [|[k x] data IH]; simpl; [reflexivity|].
    now destruct (String.eqb k "__proto__").
  - intros Hall. unfold Object_entries. rewrite Hown'.
    rewrite forallb_forall in Hall.
    assert (Hord : filter ordinary_key data = data).
    { apply forallb_filter_id. apply forallb_forall. intros kx Hin.
      specialize (Hall kx Hin). now apply andb_true_iff in Hall. }
    rewrite Hord.
    rewrite (Hfilter is_index_key), (Hfilter (fun k => negb (is_index_key k))).
    assert (Hno : filter (fun kx => is_index_key (fst kx)) data = []).
    { clear - Hall. induction data as [|kx data IH]; simpl; [reflexivity|].
      assert (H : is_index_key (fst kx) = false).
      { specialize (Hall kx (or_introl eq_refl)).
        apply andb_true_iff in Hall. destruct Hall as [_ H].
        now apply negb_true_iff in H. }
      rewrite H. apply IH. intros kx' Hin. apply Hall. now right. }
    rewrite Hno. cbn [map sort app]. f_equal.
    apply forallb_filter_id. apply forallb_forall. intros kx Hin.
    specialize (Hall kx Hin). now apply andb_true_iff in Hall.
Qed.

Lemma import_then_export_returns_the_rounded_data_witness :
  let data :=
    [("state_1", {| x_qValues := [0.1; 0.5]%float; x_visits := 2%float |});
     ("__proto__", {| x_qValues := [1]%float; x_visits := 1%float |});
     ("7", {| x_qValues := [0.25]%float; x_visits := 3%float |})] in
  let result := fst (export (snd (import engine data trained))) in
  NoDup (map fst data)
  /\ map fst (own result) = ["state_1"; "7"]
  /\ proto result = Some {| x_qValues := [1]%float; x_visits := 1%float |}
  /\ map fst (Object_entries result) = ["7"; "state_1"].
Proof.
  intros data result.
  assert (Hnd : NoDup (map fst data)).
  { repeat constructor; simpl; intuition discriminate. }
  destruct (@import_then_export_returns_the_rounded_data engine data trained
              Hnd) as (Hown & Hproto & _).
  fold result in Hown, Hproto.
  split; [exact Hnd|]. split; [now rewrite Hown|].
  split; [rewrite Hproto; vm_compute; reflexivity|].
  unfold Object_entries. rewrite Hown. vm_compute. reflexivity.
Defined.

End RouterUse.

(* ================================================================== *)
(** * The command registry: lookups *)
(* ================================================================== *)

Module RegistryFacts.
Import JS JSFacts CommandRegistry.
Local Open Scope string_scope.

Section Facts.
Variable Detail : Type.
Implicit Types (cmd : Command Detail) (registry : Map (Command Detail)).

Lemma aliases_get registry cmd (names : list string) (n : string) :
  Map_get (fold_left (fun registry alias => Map_set registry alias cmd)
             names registry) n
  = if existsb (String.eqb n) names then Some cmd else Map_get registry n.
Proof.
  revert registry. induction names as [|alias names IH]; intros registry;
    simpl; [reflexivity|].
  rewrite IH. destruct (existsb (String.eqb n) names); [now rewrite orb_true_r|].
  rewrite orb_false_r. destruct (String.eqb_spec n alias) as [->|Hne].
  - apply Map_get_set_same.
  - apply Map_get_set_other. congruence.
Qed.

Lemma register_get registry cmd (n : string) :
  Map_get (register registry cmd) n
  = if answers n cmd then Some cmd else Map_get registry n.
Proof.
  unfold register, answers.
  assert (Hname : Map_get (Map_set registry (name cmd) cmd) n
                  = if String.eqb (name cmd) n then Some cmd
                    else Map_get registry n).
  { destruct (String.eqb_spec (name cmd) n) as [<-|Hne].
    - apply Map_get_set_same.
    - now apply Map_get_set_other. }
  destruct (aliases cmd) as [names|].
  - rewrite aliases_get, Hname.
    destruct (existsb (String.eqb n) names); [now rewrite orb_true_r|].
    now rewrite orb_false_r.
  - rewrite Hname. now rewrite orb_false_r.
Qed.

Lemma registry_get (commands : list (Command Detail)) (n : string) :
  Map_get (commandRegistry commands) n = find (answers n) (rev commands).
Proof.
  unfold commandRegistry.
  induction commands as [|cmd commands IH] using rev_ind; [reflexivity|].
  rewrite fold_left_app, rev_app_distr. simpl.
  rewrite register_get, IH. reflexivity.
Qed.

Lemma register_NoDup registry cmd :
  NoDup (Map_keys registry) -> NoDup (Map_keys (register registry cmd)).
Proof.
  intros Hnd. unfold register.
  assert (H : NoDup (Map_keys (Map_set registry (name cmd) cmd)))
    by (now apply Map_set_NoDup).
  destruct (aliases cmd) as [names|]; [|exact H].
  revert H. generalize (Map_set registry (name cmd) cmd).
  induction names as [|alias names IH]; intros m Hm; simpl; [exact Hm|].
  apply IH. now apply Map_set_NoDup.
Qed.

(** [getCommand(n)] is the last command of [commands] registered under
    [n], as its name or as an alias: a later command takes a name over
    from an earlier one, hidden or not; [hasCommand(n)] says whether
    there is one. *)
Theorem lookup_returns_the_last_registration :
  forall (commands : list (Command Detail)) (n : string),
    getCommand commands n = find (answers n) (rev commands)
    /\ hasCommand commands n = existsb (answers n) commands
    /\ (forall cmd, In cmd commands ->
          hasCommand commands (name cmd) = true
          /\ forall names alias,
               aliases cmd = Some names -> In alias names ->
               hasCommand commands alias = true).
Proof.
  intros commands n.
  assert (Hhas : forall n, hasCommand commands n = existsb (answers n) commands).
  { intros m. unfold hasCommand, Map_has. rewrite registry_get.
    destruct (find (answers m) (rev commands)) as [cmd|] eqn:Hfind.
    - apply find_some in Hfind. destruct Hfind as [Hin Hans].
      symmetry. apply existsb_exists. exists cmd.
      split; [now apply in_rev|exact Hans].
    - destruct (existsb (answers m) commands) eqn:Hex; [|reflexivity].
      apply existsb_exists in Hex. destruct Hex as (cmd & Hin & Hans).
      apply in_rev in Hin.
      now rewrite (find_none _ _ Hfind cmd Hin) in Hans. }
  split; [apply registry_get|]. split; [apply Hhas|].
  intros cmd Hin. split.
  - rewrite Hhas. apply existsb_exists. exists cmd. split; [exact Hin|].
    unfold answers. now rewrite String.eqb_refl.
  - intros names alias Hal Halias. rewrite Hhas.
    apply existsb_exists. exists cmd. split; [exact Hin|].
    unfold answers. rewrite Hal. apply orb_true_iff. right.
    apply existsb_exists. exists alias. split; [exact Halias|].
    apply String.eqb_refl.
Qed.

(** [getCommandNames()] lists every name and alias of [commands] once. *)
Theorem command_names_are_listed_once :
  forall commands : list (Command Detail),
    NoDup (getCommandNames commands)
    /\ forall n,
         In n (getCommandNames commands)
         <-> exists cmd, In cmd commands /\ answers n cmd = true.
Proof.
  intros commands. split.
  - unfold getCommandNames, commandRegistry.
    assert (H : forall registry,
               NoDup (Map_keys registry) ->
               NoDup (Map_keys (fold_left (@register Detail) commands registry))).
    { induction commands as [|cmd commands IH]; intros registry Hnd; simpl;
        [exact Hnd|].
      apply IH. now apply register_NoDup. }
    apply H. constructor.
  - intros n. unfold getCommandNames.
    destruct (Map_get (commandRegistry commands) n) as [cmd|] eqn:Hget.
    + split.
      * intros _. rewrite registry_get in Hget. apply find_some in Hget.
        exists cmd. split; [apply in_rev; tauto|tauto].
      * intros _. apply Map_get_In in Hget.
        apply (in_map fst) in Hget. exact Hget.
    + split.
      * intros Hin. apply Map_get_None in Hget. contradiction.
      * intros (cmd & Hin & Hans). exfalso.
        rewrite registry_get in Hget. apply in_rev in Hin.
        now rewrite (find_none _ _ Hget cmd Hin) in Hans.
Qed.

End Facts.

End RegistryFacts.

(* ================================================================== *)
(** * Flash attention: what a call returns *)
(* ================================================================== *)

Module ShapeFacts.
Import JS FlashAttention Shapes AttentionFacts LoopFacts.
Local Open Scope list_scope.

Section Shapes.
Variable A : Arith.
Variable config : FlashAttentionConfig A.

Lemma bind_returns {X Y} (c : T X) (k : X -> T Y) (a : X) (b : Y) :
  fst c = Returns a -> fst (k a) = Returns b -> fst (bind c k) = Returns b.
Proof. intros Hc Hk. now rewrite (fst_bind _ _ Hc). Qed.

Lemma dotProduct_returns (a b : vector A) :
  exists sum, fst (dotProduct A a b) = Returns sum.
Proof. apply (dotProduct_reads a b). Qed.

Lemma score_row_returns (query : vector A) (keys : list (vector A))
    (scale : num A) :
  exists row, fst (score_row A query keys scale) = Returns row.
Proof.
  unfold score_row.
  destruct (@foldM_In_inv _ _ (fun _ => True)
              (fun row key =>
                 bind (dotProduct A query key)
                   (fun dot => ret (row ++ [n_fround A (n_mul A dot scale)])))
              keys [] I) as (row & Hrow & _).
  - intros key row _ _. destruct (dotProduct_returns query key) as [s Hs].
    eexists. split; [|exact I]. now rewrite (fst_bind _ _ Hs).
  - now exists row.
Qed.

(** A matrix of scores: one row per query. *)
Lemma scores_return (queries keys : list (vector A)) (scale : num A) :
  exists scores,
    fst (foldM (fun scores query =>
                  bind (score_row A query keys scale)
                    (fun row => ret (scores ++ [row])))
           queries [])
    = Returns scores
    /\ List.length scores = List.length queries.
Proof.
  assert (H : forall acc,
             exists scores,
               fst (foldM (fun scores query =>
                             bind (score_row A query keys scale)
                               (fun row => ret (scores ++ [row])))
                      queries acc)
               = Returns scores
               /\ List.length scores = List.length acc + List.length queries).
  { induction queries as [|query queries IH]; intros acc; simpl.
    - exists acc. split; [reflexivity|simpl; lia].
    - destruct (score_row_returns query keys scale) as [row Hrow].
      destruct (IH (acc ++ [row])) as (scores & Hs & Hlen).
      exists scores. split.
      + erewrite fst_bind; [exact Hs|]. now rewrite (fst_bind _ _ Hrow).
      + rewrite Hlen, length_app. simpl. lia. }
  destruct (H []) as (scores & Hs & Hlen). now exists scores.
Qed.

(** [row[d] += weight * values[j][d]] returns a row of the same length
    when there is a value [j]. *)
Lemma accumulate_returns (values : list (vector A)) (dims : nat)
    (row : vector A) (j : nat) (weight : num A) :
  j < List.length values ->
  exists row',
    fst (accumulate A values dims row j weight) = Returns row'
    /\ List.length row' = List.length row.
Proof.
  intros Hj. unfold accumulate.
  destruct (nth_error values j) as [v|] eqn:Hv.
  2:{ apply nth_error_None in Hv. lia. }
  apply (@foldM_In_inv _ _ (fun r => List.length r = List.length row));
    [reflexivity|].
  intros d r _ Hr. unfold read_row. rewrite Hv.
  eexists. split.
  - erewrite fst_bind by reflexivity. reflexivity.
  - now rewrite store_length.
Qed.

(** ** [naiveAttention] *)

Lemma naive_returns (queries keys values : list (vector A)) :
  List.length keys <= List.length values ->
  exists out,
    fst (naiveAttention A config queries keys values) = Returns out
    /\ List.length out = List.length queries
    /\ Forall (fun row =>
                 List.length row
                 = nullish (first_length queries) (dimensions config))
         out.
Proof.
  intros Hlen. unfold naiveAttention. cbv zeta.
  remember (nullish (first_length queries) (dimensions config)) as dims
    eqn:Hdims.
  destruct (scores_return queries keys (scale_of A config dims))
    as (scores & Hscores & Hn).
  rewrite (fst_bind _ _ Hscores).
  assert (Hw : List.length (map (softmax A) scores) = List.length queries)
    by (now rewrite length_map).
  revert Hw. generalize (map (softmax A) scores). intros weights0 Hw.
  assert (H : forall weights acc,
             Forall (fun row => List.length row = dims) acc ->
             exists out,
               fst (foldM (fun output ws =>
                             bind (foldM (fun row j =>
                                            accumulate A values dims row j
                                              (ToNumber A (nth_error ws j)))
                                     (seq 0 (List.length keys))
                                     (Float32Array_new A dims))
                               (fun row => ret (output ++ [row])))
                      weights acc)
               = Returns out
               /\ List.length out = List.length acc + List.length weights
               /\ Forall (fun row => List.length row = dims) out).
  { clear Hw. induction weights as [|ws weights IH]; intros acc Hacc; simpl.
    - exists acc. split; [reflexivity|]. unfold vector.
      split; [simpl; lia|exact Hacc].
    - destruct (@foldM_In_inv _ _ (fun r : vector A => List.length r = dims)
                  (fun row j =>
                     accumulate A values dims row j
                       (ToNumber A (nth_error ws j)))
                  (seq 0 (List.length keys)) (Float32Array_new A dims))
        as (row & Hrow & Hrowlen).
      + apply repeat_length.
      + intros j r Hj Hr. apply in_seq in Hj.
        destruct (@accumulate_returns values dims r j
                    (ToNumber A (nth_error ws j))) as (r' & Hr' & Hl); [lia|].
        exists r'. split; [exact Hr'|congruence].
      + destruct (IH (acc ++ [row])) as (out & Hout & Hl & Hall).
        { apply Forall_app. split; [exact Hacc|]. constructor; [exact Hrowlen|constructor]. }
        exists out. split.
        * erewrite fst_bind; [exact Hout|]. now rewrite (fst_bind _ _ Hrow).
        * split; [|exact Hall]. rewrite Hl, length_app. unfold vector.
          simpl. lia. }
  destruct (H weights0 [] (Forall_nil _)) as (out & Hout & Hl & Hall).
  exists out. split; [exact Hout|]. split; [|exact Hall].
  rewrite Hl. exact Hw.
Qed.

(** ** [blockAttention] *)

Lemma computeBlockScores_returns (Q K : list (vector A))
    (qStart qEnd kStart kEnd : nat) (scale : num A) :
  exists scores,
    fst (computeBlockScores A Q K qStart qEnd kStart kEnd scale)
    = Returns scores.
Proof.
  unfold computeBlockScores.
  destruct (scores_return (firstn (qEnd - qStart) (skipn qStart Q))
              (firstn (kEnd - kStart) (skipn kStart K)) scale)
    as (scores & H & _).
  now exists scores.
Qed.

Lemma set_nth_Forall {X} (P : X -> Prop) (l : list X) (i : nat) (x : X) :
  Forall P l -> P x -> Forall P (set_nth l i x).
Proof.
  intros Hl Hx. revert i.
  induction Hl as [|y l Hy Hl IH]; intros [|i]; simpl; auto.
Qed.

Lemma nth_row_length (rows : list (vector A)) (dims g : nat) :
  Forall (fun row => List.length row = dims) rows ->
  g < List.length rows ->
  List.length (nth g rows []) = dims.
Proof.
  intros Hall Hg. rewrite Forall_forall in Hall. apply Hall. now apply nth_In.
Qed.

Lemma online_returns (blockScores : list (vector A)) (V : list (vector A))
    (n dims : nat) (st : Running A) (qStart qEnd kStart kEnd : nat) :
  kEnd <= List.length V ->
  qEnd <= n ->
  state_shape n dims st ->
  exists st',
    fst (onlineSoftmaxAccumulate A blockScores V dims st qStart qEnd
           kStart kEnd)
    = Returns st'
    /\ state_shape n dims st'.
Proof.
  intros HkEnd HqEnd Hst. unfold onlineSoftmaxAccumulate.
  apply (@foldM_In_inv _ _ (@state_shape A n dims)); [exact Hst|].
  clear st Hst. intros qi st Hqi (Ho & Hrows & Hm & Hs). cbv zeta.
  apply in_seq in Hqi.
  set (g := qStart + qi) in *.
  assert (Hg : g < List.length (output st)) by (subst g; lia).
  match goal with
  | |- exists st', fst (bind (foldM ?body ?xs ?s0) _) = _ /\ _ =>
      destruct (@foldM_In_inv _ _
                  (fun acc : num A * vector A => List.length (snd acc) = dims)
                  body xs s0) as (acc & Hacc & Hlen)
  end.
  - cbn [snd]. rewrite length_map. now apply nth_row_length.
  - intros ki acc Hki Hacc. apply in_seq in Hki.
    match goal with
    | |- exists s', fst (bind (accumulate A V dims ?r ?j ?e) _) = _ /\ _ =>
        destruct (@accumulate_returns V dims r j e) as (row & Hrow & Hl);
          [lia|]
    end.
    eexists. split; [now rewrite (fst_bind _ _ Hrow)|].
    cbn [snd]. congruence.
  - eexists. split; [now rewrite (fst_bind _ _ Hacc)|].
    unfold state_shape. cbn [output maxScores sumExp].
    rewrite set_nth_length, !store_length.
    split; [exact Ho|]. split; [|now split].
    now apply set_nth_Forall.
Qed.

Lemma strides_positive (n b : nat) :
  0 < b -> exists starts, strides n b = Some starts.
Proof.
  intros Hb. destruct n as [|n]; [now exists []|].
  destruct b as [|b]; [lia|]. eexists. reflexivity.
Qed.

Lemma block_returns (Q K V : list (vector A)) (b : nat) :
  0 < b ->
  List.length K <= List.length V ->
  exists out,
    fst (blockAttention A config Q K V b) = Returns out
    /\ List.length out = List.length Q
    /\ Forall (fun row =>
                 List.length row
                 = nullish (first_length Q) (dimensions config))
         out.
Proof.
  intros Hb Hlen. unfold blockAttention. cbv zeta.
  remember (nullish (first_length Q) (dimensions config)) as dims eqn:Hdims.
  destruct (strides_positive (List.length K) Hb) as [kStarts ->].
  destruct (strides_positive (List.length Q) Hb) as [qStarts ->].
  match goal with
  | |- exists out, fst (bind (foldM ?body ?xs ?s0) _) = _ /\ _ =>
      destruct (@foldM_In_inv _ _ (@state_shape A (List.length Q) dims)
                  body xs s0) as (st & Hst & Ho & Hrows & Hm & Hs)
  end.
  - unfold state_shape. cbn [output maxScores sumExp].
    rewrite !repeat_length. repeat split.
    apply Forall_forall. intros row Hrow. apply repeat_spec in Hrow.
    subst row. apply repeat_length.
  - intros kStart st _ Hst.
    apply (@foldM_In_inv _ _ (@state_shape A (List.length Q) dims));
      [exact Hst|].
    clear st Hst. intros qStart st _ Hst.
    destruct (computeBlockScores_returns Q K qStart
                (Nat.min (qStart + b) (List.length Q)) kStart
                (Nat.min (kStart + b) (List.length K))
                (scale_of A config dims)) as [scores Hscores].
    rewrite (fst_bind _ _ Hscores).
    apply online_returns; [lia|lia|exact Hst].
  - eexists. split; [now rewrite (fst_bind _ _ Hst)|].
    split.
    + rewrite length_map, length_combine. lia.
    + apply Forall_forall. intros row Hin. apply in_map_iff in Hin.
      destruct Hin as ([r s] & <- & Hin). cbn [fst snd].
      apply in_combine_l in Hin. rewrite Forall_forall in Hrows.
      destruct (n_gt A s (n_zero A)); [rewrite length_map|]; now apply Hrows.
Qed.

End Shapes.

(** The outcome of [attention], whatever the arithmetic.  An input that
    [validateInputs] rejects makes it throw that error before any
    element is read.  On an accepted input it never throws: it returns
    one row per query, each as long as the first query, unless the
    tiled path is taken with a block size of 0, which never returns. *)
Theorem attention_returns_a_row_per_query :
  forall (A : Arith) (config : FlashAttentionConfig A)
         (Q K V : list (vector A)),
    match validateInputs Q K V with
    | Throws e => attention A config Q K V = (Throws e, [])
    | Diverges => False
    | Returns _ =>
        if (1024 <? List.length Q * List.length K)
           && (blockSize config =? 0)
        then fst (attention A config Q K V) = Diverges
        else exists out,
               fst (attention A config Q K V) = Returns out
               /\ List.length out = List.length Q
               /\ Forall (fun row => List.length row = List.length (hd [] Q))
                    out
    end.
Proof.
  intros A config Q K V. unfold attention.
  destruct (validateInputs Q K V) as [[]|e|] eqn:Hvalid; [|reflexivity|].
  - assert (Hshape : List.length K = List.length V
                     /\ nullish (first_length Q) (dimensions config)
                        = List.length (hd [] Q)
                     /\ K <> []).
    { revert Hvalid. unfold validateInputs, vector in *.
      destruct Q as [|q Q], K as [|k K], V as [|v V]; simpl;
        try discriminate.
      destruct (Nat.eqb_spec (List.length K) (List.length V)) as [H|H];
        simpl; [|discriminate].
      intros _. split; [now f_equal|]. split; [reflexivity|discriminate]. }
    destruct Hshape as (Hcount & Hdims & Hkeys).
    destruct (1024 <? List.length Q * List.length K) eqn:Hbig; cbn [andb].
    + destruct (Nat.eqb_spec (blockSize config) 0) as [Hzero|Hpos].
      * rewrite Hzero. destruct K as [|k K]; [congruence|]. reflexivity.
      * destruct (@block_returns A config Q K V (blockSize config))
          as (out & Hout & Hn & Hrows); [lia|lia|].
        rewrite Hdims in Hrows. now exists out.
    + destruct (@naive_returns A config Q K V) as (out & Hout & Hn & Hrows);
        [lia|].
      rewrite Hdims in Hrows. now exists out.
  - unfold validateInputs in Hvalid. cbv zeta in Hvalid.
    repeat match type of Hvalid with
           | (if ?c then _ else _) = _ => destruct c
           end; discriminate.
Qed.

End ShapeFacts.

(* ================================================================== *)
(** * The flash-attention module: the singleton and the metrics *)
(* ================================================================== *)

Module ModuleFacts.
Import JS FlashAttention FlashAttentionModule.

(** The singleton is built once: the configuration given to
    [getFlashAttention] counts on the first call only, and a call of
    [computeAttention] without configuration or of
    [getFlashAttentionSpeedup] is such a first call (with the defaults);
    [resetFlashAttention] makes the next call a first call again.
    [computeAttention] with a configuration uses an object of its own
    and leaves the singleton as it is. *)
Theorem singleton_configuration_is_set_once :
  forall (A : Arith) (s : Singleton A) (c1 c2 : option (PartialConfig A))
         (Q K V : list (vector A)),
    getFlashAttention c2 (snd (getFlashAttention c1 s))
    = getFlashAttention c1 s
    /\ fst (getFlashAttention c2 (snd (computeAttention Q K V None s)))
       = fst (getFlashAttention None s)
    /\ fst (getFlashAttention c2 (snd (getFlashAttentionSpeedup s)))
       = fst (getFlashAttention None s)
    /\ getConfig (fst (getFlashAttention None None)) = default_config A
    /\ fst (getFlashAttention c1 (snd (resetFlashAttention s)))
       = constructor c1
    /\ (forall c,
          computeAttention Q K V (Some c) s
          = (attention A (getConfig (constructor (Some c))) Q K V, s)).
Proof.
  intros A s c1 c2 Q K V.
  destruct s as [fa|]; repeat split; reflexivity.
Qed.

End ModuleFacts.

Module OptimizerFacts.
Import JS FlashAttentionOptimizer.

Lemma benchmark_counts toLowerCase results o :
  let o' := snd (benchmark toLowerCase results o) in
  operations (metrics o') = operations (metrics o)
  /\ totalExecutionTime (metrics o') = totalExecutionTime (metrics o)
  /\ dim o' = dim o /\ blockSize o' = blockSize o.
Proof.
  unfold benchmark.
  destruct (find _ results) as [flashResult|]; [|now repeat split].
  destruct (find _ results) as [baselineResult|]; [|now repeat split].
  cbv zeta. cbn [snd metrics dim blockSize].
  destruct (gt _ _), (ge _ _); now repeat split.
Qed.

Lemma benchmarks_counts toLowerCase runs :
  forall o,
    operations (metrics (benchmarks toLowerCase runs o)) = operations (metrics o)
    /\ totalExecutionTime (metrics (benchmarks toLowerCase runs o))
       = totalExecutionTime (metrics o).
Proof.
  unfold benchmarks.
  induction runs as [|results runs IH]; intros o; simpl; [now split|].
  destruct (IH (snd (benchmark toLowerCase results o))) as [H1 H2].
  destruct (benchmark_counts toLowerCase results o) as (H3 & H4 & _).
  split; congruence.
Qed.

(** [benchmark()] adds the speedup it measured to [totalSpeedup] but
    never counts an operation: whatever benchmarks have run on a new
    optimizer, or since [resetMetrics()], [getSpeedup()] is 0, and
    [getMetrics()] reports no operation, an average speedup, an average
    time and a success rate of 0. *)
Theorem benchmarks_never_count_as_operations :
  forall (toLowerCase : string -> string)
         (runs : list (list AttentionBenchmarkResult)) (o : Optimizer),
    let fresh := benchmarks toLowerCase runs (resetMetrics o) in
    let created :=
      benchmarks toLowerCase runs (constructor (Some (dim o)) (Some (blockSize o))) in
    created = fresh
    /\ getSpeedup fresh = zero
    /\ totalOperations (getMetrics fresh) = zero
    /\ averageSpeedup (getMetrics fresh) = zero
    /\ averageExecutionTimeMs (getMetrics fresh) = zero
    /\ successRate (getMetrics fresh) = zero.
Proof.
  intros toLowerCase runs o fresh created.
  destruct (benchmarks_counts toLowerCase runs (resetMetrics o)) as [Hops _].
  fold fresh in Hops. cbn in Hops.
  split; [reflexivity|].
  unfold getMetrics, getSpeedup. cbn [totalOperations averageSpeedup
    averageExecutionTimeMs successRate]. rewrite Hops.
  repeat split; reflexivity.
Qed.

End OptimizerFacts.
